(** * variadicLogging: deferred formatting of variadic log arguments

    A shallow embedding of [main.cc].  The producer side ([LOG], [WriteLog],
    [LogWriter]) copies the raw bytes of the call arguments into the buffer of
    a record header and remembers which formatter object can read them back;
    the consumer side ([LogConsumer], [LogFormatter]) walks the format string
    and renders the stored bytes as text.

    Conventions of the model
    - a C string ([const char*]) is a [string]: the characters before the
      terminating NUL;
    - a [char] cell of memory is an [ascii]; a [char*] into the record buffer
      is a [Z], the offset from the first cell of [Header::mBuffer];
    - a [std::ostringstream] is the [string] it has accumulated; it is threaded
      through the functions that take it by reference;
    - object sizes and byte order are those of the x86-64 System V ABI
      (little endian, [int] of 4 bytes, [long] and [double] of 8);
    - [size_t] values are unbounded [Z]: no call has enough arguments to wrap a
      64-bit sum of object sizes. *)

From Stdlib Require Import ZArith String Ascii List DecimalString Lia.
From stdpp Require Import gmap strings list.

Local Open Scope Z_scope.

(** ** Bytes and object representations *)

Module Bytes.

Definition zero : ascii := "000"%char.

Definition of_Z (n : Z) : ascii := ascii_of_N (Z.to_N (n mod 256)).
Definition to_Z (b : ascii) : Z := Z.of_N (N_of_ascii b).

(** The [k] low-order bytes of [n], least significant first; a negative [n]
    comes out in two's complement. *)
Fixpoint encode_le (k : nat) (n : Z) : list ascii :=
  match k with
  | O => []
  | S k' => of_Z n :: encode_le k' (n / 256)
  end.

Fixpoint decode_le (bs : list ascii) : Z :=
  match bs with
  | [] => 0
  | b :: bs' => to_Z b + 256 * decode_le bs'
  end.

(** Reading a [k]-byte pattern as a signed two's complement number. *)
Definition to_signed (k : nat) (u : Z) : Z :=
  if u <? 2 ^ (8 * Z.of_nat k - 1) then u else u - 2 ^ (8 * Z.of_nat k).

End Bytes.

(** ** Argument types

    The template parameters the logger is instantiated with: the fixed-size,
    trivially copyable fundamental types that have a stream inserter. *)

Inductive int_type := Short | UShort | Int | UInt | Long | ULong.
Inductive fp_type := Float | Double.

Inductive ctype :=
| TBool
| TChar
| TInteger (t : int_type)
| TFloating (t : fp_type).

(** A value of one of these types.  A floating-point value is kept as its
    IEEE 754 bit pattern. *)
Inductive value :=
| VBool (b : bool)
| VChar (c : ascii)
| VInteger (t : int_type) (n : Z)
| VFloating (t : fp_type) (bits : Z).

Definition type_of (v : value) : ctype :=
  match v with
  | VBool _ => TBool
  | VChar _ => TChar
  | VInteger t _ => TInteger t
  | VFloating t _ => TFloating t
  end.

Definition int_bytes (t : int_type) : nat :=
  match t with
  | Short | UShort => 2
  | Int | UInt => 4
  | Long | ULong => 8
  end.

Definition int_signed (t : int_type) : bool :=
  match t with
  | Short | Int | Long => true
  | UShort | UInt | ULong => false
  end.

Definition fp_bytes (t : fp_type) : nat :=
  match t with
  | Float => 4
  | Double => 8
  end.

Definition type_bytes (T : ctype) : nat :=
  match T with
  | TBool | TChar => 1
  | TInteger t => int_bytes t
  | TFloating t => fp_bytes t
  end.

(** [sizeof(T)] *)
Definition sizeof (T : ctype) : Z := Z.of_nat (type_bytes T).

Definition int_min (t : int_type) : Z :=
  if int_signed t then - 2 ^ (8 * Z.of_nat (int_bytes t) - 1) else 0.

Definition int_max (t : int_type) : Z :=
  if int_signed t then 2 ^ (8 * Z.of_nat (int_bytes t) - 1) - 1
  else 2 ^ (8 * Z.of_nat (int_bytes t)) - 1.

(** The values a variable of the type can hold. *)
Definition wf_value (v : value) : Prop :=
  match v with
  | VBool _ | VChar _ => True
  | VInteger t n => int_min t <= n <= int_max t
  | VFloating t bits => 0 <= bits < 2 ^ (8 * Z.of_nat (fp_bytes t))
  end.

Definition wf_valueb (v : value) : bool :=
  match v with
  | VBool _ | VChar _ => true
  | VInteger t n => (int_min t <=? n) && (n <=? int_max t)
  | VFloating t bits => (0 <=? bits) && (bits <? 2 ^ (8 * Z.of_nat (fp_bytes t)))
  end.

(** The object representation [memcpy] reads from [&arg]. *)
Definition object_bytes (v : value) : list ascii :=
  match v with
  | VBool b => [if b then "001"%char else Bytes.zero]
  | VChar c => [c]
  | VInteger t n => Bytes.encode_le (int_bytes t) n
  | VFloating t bits => Bytes.encode_le (fp_bytes t) bits
  end.

(** The object [*reinterpret_cast<const T*>(p)] denotes when the [sizeof(T)]
    bytes at [p] are [bs]. *)
Definition read_object (T : ctype) (bs : list ascii) : value :=
  match T with
  | TBool => VBool (negb (Bytes.decode_le bs =? 0))
  | TChar => VChar (nth 0 bs Bytes.zero)
  | TInteger t =>
      let u := Bytes.decode_le bs in
      VInteger t (if int_signed t then Bytes.to_signed (int_bytes t) u else u)
  | TFloating t => VFloating t (Bytes.decode_le bs)
  end.

(** ** Stream insertion: [outputStream << x]

    What the inserter of each type appends to a stream in its initial
    formatting state (decimal base, no field width, precision 6, no
    [boolalpha]), as the C++ library defines it. *)

Module OStream.

Definition decimal (n : Z) : string := NilZero.string_of_int (Z.to_int n).

(** *** Floating point

    The inserter prints as [printf("%g")] does with precision 6.  A finite
    number is the exact rational [m * 2^e]; it is rounded to 6 significant
    decimal digits (to nearest, ties to even) and laid out in fixed or
    scientific notation by its decimal exponent, trailing zeros removed. *)

Inductive fp_class :=
| FZero
| FInfinity
| FNaN
| FFinite (m e : Z).

Definition exponent_bits (t : fp_type) : Z :=
  match t with Float => 8 | Double => 11 end.

Definition fraction_bits (t : fp_type) : Z :=
  match t with Float => 23 | Double => 52 end.

Definition sign_bit (t : fp_type) (bits : Z) : bool :=
  Z.testbit bits (exponent_bits t + fraction_bits t).

Definition classify (t : fp_type) (bits : Z) : fp_class :=
  let ebits := exponent_bits t in
  let fbits := fraction_bits t in
  let bias := 2 ^ (ebits - 1) - 1 in
  let e := (bits / 2 ^ fbits) mod 2 ^ ebits in
  let f := bits mod 2 ^ fbits in
  if e =? 2 ^ ebits - 1 then (if f =? 0 then FInfinity else FNaN)
  else if e =? 0 then (if f =? 0 then FZero else FFinite f (1 - bias - fbits))
  else FFinite (2 ^ fbits + f) (e - bias - fbits).

(** The decimal exponent of the positive fraction [num / den]: the [x] with
    [10^x <= num / den < 10^(x+1)]. *)
Fixpoint decimal_exponent (fuel : nat) (num den : Z) : Z :=
  match fuel with
  | O => 0
  | S fuel' =>
      if num <? den then decimal_exponent fuel' (10 * num) den - 1
      else if 10 * den <=? num then decimal_exponent fuel' num (10 * den) + 1
      else 0
  end.

Definition precision : Z := 6.

(** [num / den] rounded to [precision] significant digits: the digits as
    an integer of that many digits, and the decimal exponent of the result. *)
Definition round_digits (num den : Z) : Z * Z :=
  let fuel := S (Z.to_nat (Z.log2 num + Z.log2 den)) in
  let x := decimal_exponent fuel num den in
  let k := precision - 1 - x in
  let n' := if 0 <=? k then num * 10 ^ k else num in
  let d' := if 0 <=? k then den else den * 10 ^ (- k) in
  let q := n' / d' in
  let r := n' mod d' in
  let q' := if (d' <? 2 * r) || ((d' =? 2 * r) && Z.odd q) then q + 1 else q in
  if q' =? 10 ^ precision then (10 ^ (precision - 1), x + 1) else (q', x).

Fixpoint strip_zeros (s : string) : string :=
  match s with
  | EmptyString => EmptyString
  | String c r =>
      let r' := strip_zeros r in
      if decide (c = "0"%char /\ r' = EmptyString) then EmptyString
      else String c r'
  end.

Fixpoint zeros (n : nat) : string :=
  match n with
  | O => EmptyString
  | S n' => String "0" (zeros n')
  end.

Definition with_fraction (int_part frac : string) : string :=
  let frac' := strip_zeros frac in
  if decide (frac' = EmptyString) then int_part
  else int_part +:+ "." +:+ frac'.

Definition two_digits (x : Z) : string :=
  if x <? 10 then "0" +:+ decimal x else decimal x.

Definition general (num den : Z) : string :=
  let '(digits, x) := round_digits num den in
  let ds := decimal digits in
  if (x <? -4) || (precision <=? x) then
    with_fraction (substring 0 1 ds) (substring 1 (String.length ds - 1) ds)
      +:+ "e" +:+ (if x <? 0 then "-" else "+") +:+ two_digits (Z.abs x)
  else if 0 <=? x then
    let i := Z.to_nat (x + 1) in
    with_fraction (substring 0 i ds) (substring i (String.length ds - i) ds)
  else
    with_fraction "0" (zeros (Z.to_nat (- x - 1)) +:+ ds).

Definition floating (t : fp_type) (bits : Z) : string :=
  (if sign_bit t bits then "-" else "") +:+
  match classify t bits with
  | FZero => "0"
  | FInfinity => "inf"
  | FNaN => "nan"
  | FFinite m e => if 0 <=? e then general (m * 2 ^ e) 1 else general m (2 ^ (- e))
  end.

(** [os << v] for a value of each type: the text appended. *)
Definition text_of (v : value) : string :=
  match v with
  | VBool b => if b then "1" else "0"
  | VChar c => String c EmptyString
  | VInteger _ n => decimal n
  | VFloating t bits => floating t bits
  end.

End OStream.

(** ** Memory

    The cells reachable from [Header::mBuffer], keyed by their offset from
    its first element.  A cell never written holds zero: the header has
    static storage.  Offsets [0 .. 127] are the array itself; the map has no
    upper bound, as [memcpy] has none. *)

Abbreviation mem := (gmap Z ascii).

Definition load (m : mem) (p : Z) : ascii := default Bytes.zero (m !! p).

Fixpoint load_bytes (m : mem) (p : Z) (n : nat) : list ascii :=
  match n with
  | O => []
  | S n' => load m p :: load_bytes m (p + 1) n'
  end.

(** [memcpy(p, src, length bs)] where [bs] are the bytes at [src]. *)
Fixpoint memcpy (m : mem) (p : Z) (bs : list ascii) : mem :=
  match bs with
  | [] => m
  | b :: bs' => memcpy (<[p := b]> m) (p + 1) bs'
  end.

(** ** C strings *)

(** [std::strstr(haystack, needle)]: the offset of the first occurrence, or
    [None] for the null pointer. *)
Definition strstr (haystack needle : string) : option nat :=
  String.index 0 needle haystack.

(** [s + n] for a pointer [s] into a C string. *)
Fixpoint advance (n : nat) (s : string) : string :=
  match n, s with
  | O, _ => s
  | S n', String _ s' => advance n' s'
  | S _, EmptyString => EmptyString
  end.

(** ** LogFormatter *)

Abbreviation ostringstream := string.

(** A [LogFormatter<T...>] object: the format string it was constructed with
    and the template arguments that select its [Evaluate]. *)
Record LogFormatter := {
  mFormatString : string;
  T : list ctype
}.

Definition FormatArg (Arg : ctype) (outputStream : ostringstream)
    (m : mem) (argsData : Z) : ostringstream * Z :=
  let arg := read_object Arg (load_bytes m argsData (type_bytes Arg)) in
  (outputStream +:+ OStream.text_of arg, argsData + sizeof Arg).

(** [Format<Args...>]: [None] when [strstr] finds no placeholder, where the
    source goes on with a null pointer. *)
Fixpoint Format (Args : list ctype) (outputStream : ostringstream)
    (formatString : string) (m : mem) (argsData : Z) : option ostringstream :=
  match Args with
  | [] => Some (outputStream +:+ formatString)
  | Arg :: Args' =>
      match strstr formatString "%" with
      | None => None
      | Some firstPlaceholder =>
          let outputStream :=
            outputStream +:+ substring 0 firstPlaceholder formatString in
          let '(outputStream, argsData) := FormatArg Arg outputStream m argsData in
          Format Args' outputStream (advance (firstPlaceholder + 1) formatString)
            m argsData
      end
  end.

Definition Evaluate (f : LogFormatter) (m : mem) (argsData : Z)
    (outputStream : ostringstream) : option ostringstream :=
  Format (T f) outputStream (mFormatString f) m argsData.

(** ** LogWriter *)

(** What the pointer member of a header holds: null, the address of the
    formatter object with index [p], or a pointer some of whose bytes a copy
    into the buffer has replaced.  [Overwritten low rest] is [rest] with its
    first [length low] bytes replaced by [low]; with eight bytes in [low]
    nothing of [rest] is left and the member reads as [Bytes.decode_le low]. *)
Inductive pointer :=
| Null
| Object (p : nat)
| Overwritten (low : list ascii) (rest : pointer).

(** [struct Header]: the array at offset 0 and, right behind it at offset
    128, the pointer.  [mBuffer] maps offsets from the first element of the
    array to bytes; offsets 0..127 are the array.  An entry at a higher offset
    is a byte that a copy has put behind the array: at 128..135 over the
    pointer, whose state [mLogFormatter] keeps, and from 136 on over
    whatever follows the header in memory. *)
Record Header := {
  mBuffer : mem;                 (* char mBuffer[128] *)
  mLogFormatter : pointer        (* const BaseLogFormatter* mLogFormatter *)
}.

Definition mBuffer_size : Z := 128.

(** The size of a pointer. *)
Definition pointer_bytes : Z := 8.

(** The pointer member after a copy into the buffer that stopped at offset
    [stop].  A copy that stays inside the array leaves it alone; one that goes
    on has put the bytes from offset 128 up to [stop], at most eight, over
    it. *)
Definition pointer_after_copy (m : mem) (stop : Z) (ptr : pointer) : pointer :=
  if decide (stop <= mBuffer_size) then ptr
  else
    Overwritten
      (load_bytes m mBuffer_size (Z.to_nat (Z.min (stop - mBuffer_size) pointer_bytes)))
      ptr.

(** The state of the process: the one static [Header] of [GetNextHeader], the
    formatter objects created by [new] (a pointer to one is its index), and
    the [static BaseLogFormatter* sLogFormatter] of every expansion of [LOG],
    keyed by call site; a site not in the map still holds [nullptr]. *)
Record state := {
  sHeader : Header;
  heap : list LogFormatter;
  sLogFormatter : gmap nat nat
}.

Definition init_state : state :=
  {| sHeader := {| mBuffer := ∅; mLogFormatter := Null |};
     heap := [];
     sLogFormatter := ∅ |}.

(** [new T(args...)] *)
Definition CreateLogFormatter (s : state) (f : LogFormatter) : state * nat :=
  ({| sHeader := sHeader s; heap := heap s ++ [f];
      sLogFormatter := sLogFormatter s |},
   length (heap s)).

Definition GetNextHeader (s : state) : Header := sHeader s.

(** The header is handed out with its formatter pointer stored; [sizeRequired]
    is not looked at.  The result is [header.mBuffer], offset 0. *)
Definition GetLogBuffer (s : state) (logFormatter : nat) (sizeRequired : Z)
    : state * Z :=
  let header := GetNextHeader s in
  ({| sHeader := {| mBuffer := mBuffer header;
                    mLogFormatter := Object logFormatter |};
      heap := heap s; sLogFormatter := sLogFormatter s |},
   0).

Definition CopyArg (m : mem) (buffer : Z) (arg : value) : mem * Z :=
  (memcpy m buffer (object_bytes arg), buffer + sizeof (type_of arg)).

Fixpoint CopyArgs (m : mem) (buffer : Z) (args : list value) : mem * Z :=
  match args with
  | [] => (m, buffer)
  | arg :: args' =>
      let '(m, buffer) := CopyArg m buffer arg in
      CopyArgs m buffer args'
  end.

Definition GetArgSize (arg : value) : Z := sizeof (type_of arg).

Fixpoint GetArgsSize (args : list value) : Z :=
  match args with
  | [] => 0
  | arg :: args' => GetArgSize arg + GetArgsSize args'
  end.

(** The pointer is stored first, by [GetLogBuffer]; the copy comes after it
    and has no bound, so a payload of more than 128 bytes runs over the
    pointer. *)
Definition Write (s : state) (logFormatter : nat) (args : list value) : state :=
  let argSize := GetArgsSize args in
  let '(s, buffer) := GetLogBuffer s logFormatter argSize in
  let '(m, stop) := CopyArgs (mBuffer (sHeader s)) buffer args in
  {| sHeader := {| mBuffer := m;
                   mLogFormatter :=
                     pointer_after_copy m stop (mLogFormatter (sHeader s)) |};
     heap := heap s; sLogFormatter := sLogFormatter s |}.

(** [WriteLog(&sLogFormatter, formatString, args...)] for the static of call
    site [site].  [Args...] are deduced from the arguments. *)
Definition WriteLog (s : state) (site : nat) (formatString : string)
    (args : list value) : state :=
  match sLogFormatter s !! site with
  | None =>
      let '(s, p) :=
        CreateLogFormatter s
          {| mFormatString := formatString; T := type_of <$> args |} in
      let s := {| sHeader := sHeader s; heap := heap s;
                  sLogFormatter := <[site := p]> (sLogFormatter s) |} in
      Write s p args
  | Some p => Write s p args
  end.

(** ** LogConsumer *)

(** [header.mLogFormatter->Evaluate(header.mBuffer, outputStream)]; [None]
    where the call goes through a pointer that is null, has been overwritten
    or designates no formatter. *)
Definition Consume (s : state) (header : Header) (outputStream : ostringstream)
    : option ostringstream :=
  match mLogFormatter header with
  | Object p =>
      match heap s !! p with
      | None => None
      | Some f => Evaluate f (mBuffer header) 0 outputStream
      end
  | Null | Overwritten _ _ => None
  end.

(** ** The API *)

Definition sizeof_args (args : list value) : nat := length args.

Fixpoint CountPlaceholders (formatString : string) : nat :=
  match formatString with
  | EmptyString => 0
  | String c rest =>
      ((if decide (c = "%"%char) then 1 else 0) + CountPlaceholders rest)%nat
  end.

(** One execution of [LOG(formatString, args...)] at call site [site].  The
    [static_assert] is decided when the call is compiled: a call that fails it
    is no part of any program, which [None] stands for. *)
Definition LOG (site : nat) (formatString : string) (args : list value)
    (s : state) : option state :=
  if decide (CountPlaceholders formatString = sizeof_args args)
  then Some (WriteLog s site formatString args)
  else None.

(** [main], up to the text sent to [std::cout] before [std::endl]. *)
Definition double_42_3 : Z := 0x4045266666666666.

Definition main : option string :=
  s ← LOG 0 "Hello int=% char=% float=%"
        [VInteger Int 1; VChar "a"; VFloating Double double_42_3] init_state;
  Consume s (GetNextHeader s) "".

(** ** Programs: sequences of log calls *)

(** One execution of a [LOG] statement. *)
Record call := {
  call_site : nat;
  call_format : string;
  call_args : list value
}.

Definition exec (c : call) (s : state) : option state :=
  LOG (call_site c) (call_format c) (call_args c) s.

(** Runs the calls in order.  Next to the final state it returns the record
    each call left in the header: what [GetNextHeader] holds right after it. *)
Fixpoint run (calls : list call) (s : state) : option (state * list Header) :=
  match calls with
  | [] => Some (s, [])
  | c :: calls' =>
      s1 ← exec c s;
      '(s2, records) ← run calls' s1;
      Some (s2, GetNextHeader s1 :: records)
  end.

(** The formatter [WriteLog] constructs for a call. *)
Definition descriptor_of (c : call) : LogFormatter :=
  {| mFormatString := call_format c; T := type_of <$> call_args c |}.

(** What holds of the formatter pointers in every reachable state: each
    static points into the heap, no two statics hold the same pointer, and
    there are as many formatter objects as statics that have been set. *)
Definition descriptors_ok (s : state) : Prop :=
  (∀ site p, sLogFormatter s !! site = Some p → (p < length (heap s))%nat) ∧
  (∀ site1 site2 p,
     sLogFormatter s !! site1 = Some p → sLogFormatter s !! site2 = Some p →
     site1 = site2) ∧
  length (heap s) = size (sLogFormatter s).

(** A call site is one place in the program text: every execution of it has
    the same format string and the same argument types. *)
Definition consistent (calls : list call) : Prop :=
  ∀ i j ci cj,
    calls !! i = Some ci → calls !! j = Some cj →
    call_site ci = call_site cj →
    call_format ci = call_format cj ∧
    type_of <$> call_args ci = type_of <$> call_args cj.

(** The arguments of the call fit the array of the header. *)
Definition fits (c : call) : Prop := GetArgsSize (call_args c) <= mBuffer_size.

(** A run in which no copy leaves the array. *)
Definition within_capacity (calls : list call) : Prop := Forall fits calls.



(** ** The stream with its field width

    [Format] and its callers once more, on a stream that carries its field
    width and fill character next to its text.  A formatted insertion
    ([os << x]) pads the text form of [x] on the left with the fill character
    up to the field width and sets the width back to 0; [os.write] neither
    pads nor touches the width.  The other formatting flags and the precision,
    which no insertion changes, are the initial ones, as in [OStream].  On a
    stream of width 0 this is the model above. *)

Module Formatted.

Record ostream := {
  str : string;
  width : nat;
  fill : ascii
}.

(** A stream in the initial formatting state that holds [text]. *)
Definition of_text (text : string) : ostream :=
  {| str := text; width := 0; fill := " " |}.

Fixpoint fill_chars (n : nat) (c : ascii) : string :=
  match n with
  | O => EmptyString
  | S n' => String c (fill_chars n' c)
  end.

Definition padded (os : ostream) (t : string) : string :=
  fill_chars (width os - String.length t) (fill os) +:+ t.

(** [os << x], where [t] is the text form of [x]. *)
Definition formatted (os : ostream) (t : string) : ostream :=
  {| str := str os +:+ padded os t; width := 0; fill := fill os |}.

(** [os.write(p, n)], where [t] are the [n] characters at [p]. *)
Definition unformatted (os : ostream) (t : string) : ostream :=
  {| str := str os +:+ t; width := width os; fill := fill os |}.

Definition FormatArg (Arg : ctype) (outputStream : ostream)
    (m : mem) (argsData : Z) : ostream * Z :=
  let arg := read_object Arg (load_bytes m argsData (type_bytes Arg)) in
  (formatted outputStream (OStream.text_of arg), argsData + sizeof Arg).

Fixpoint Format (Args : list ctype) (outputStream : ostream)
    (formatString : string) (m : mem) (argsData : Z) : option ostream :=
  match Args with
  | [] => Some (formatted outputStream formatString)
  | Arg :: Args' =>
      match strstr formatString "%" with
      | None => None
      | Some firstPlaceholder =>
          let outputStream :=
            unformatted outputStream (substring 0 firstPlaceholder formatString) in
          let '(outputStream, argsData) := FormatArg Arg outputStream m argsData in
          Format Args' outputStream (advance (firstPlaceholder + 1) formatString)
            m argsData
      end
  end.

Definition Evaluate (f : LogFormatter) (m : mem) (argsData : Z)
    (outputStream : ostream) : option ostream :=
  Format (T f) outputStream (mFormatString f) m argsData.

(** [LogConsumer::Consume].  Next to the stream it returns the state of the
    process it ran in: the header and the formatter are handed to it as
    references to const, and it gives the state back as it got it. *)
Definition Consume (s : state) (header : Header) (outputStream : ostream)
    : option (state * ostream) :=
  match mLogFormatter header with
  | Object p =>
      match heap s !! p with
      | None => None
      | Some f =>
          outputStream ← Evaluate f (mBuffer header) 0 outputStream;
          Some (s, outputStream)
      end
  | Null | Overwritten _ _ => None
  end.

End Formatted.

(** ** The straightforward formatter of the specification

    Formatting the arguments directly against the format string: every
    placeholder is replaced by the text form of the next argument, in order,
    and every other character is copied. *)
Fixpoint spec_direct_format (formatString : string) (args : list value) : string :=
  match formatString with
  | EmptyString => EmptyString
  | String c rest =>
      if decide (c = "%"%char) then
        match args with
        | arg :: args' => OStream.text_of arg +:+ spec_direct_format rest args'
        | [] => String c (spec_direct_format rest [])
        end
      else String c (spec_direct_format rest args)
  end.

(** The bytes of a whole argument list, in call order. *)
Definition payload (args : list value) : list ascii :=
  concat (object_bytes <$> args).

(** The offset of an argument in the payload: the sizes of those before it. *)
Definition arg_offset (before : list value) : Z :=
  foldr (λ arg acc, sizeof (type_of arg) + acc) 0 before.

(** ** Sample inputs *)

(** A call with seventeen [double] arguments: 136 bytes for a 128-byte buffer. *)
Definition seventeen_doubles : list value :=
  replicate 17 (VFloating Double double_42_3).

Definition seventeen_placeholders : string := "%%%%%%%%%%%%%%%%%".

(** Five executions of one [LOG("n=%", i)], for [i] from 1 to 5. *)
Definition five_calls : list call :=
  (λ i, {| call_site := 0; call_format := "n=%";
           call_args := [VInteger Int i] |}) <$> [1; 2; 3; 4; 5].

(** Two call sites with the same format string and argument types. *)
Definition twin_sites : list call :=
  [ {| call_site := 0; call_format := "x=%"; call_args := [VInteger Int 1] |};
    {| call_site := 1; call_format := "x=%"; call_args := [VInteger Int 1] |} ].

(** * Properties *)

(** ** Little-endian encoding *)

Section ByteLemmas.

Lemma to_Z_of_Z n : Bytes.to_Z (Bytes.of_Z n) = n mod 256.
Proof.
  unfold Bytes.to_Z, Bytes.of_Z.
  assert (0 <= n mod 256 < 256) by (apply Z.mod_pos_bound; lia).
  rewrite N_ascii_embedding by lia. lia.
Qed.

Lemma of_Z_to_Z b : Bytes.of_Z (Bytes.to_Z b) = b.
Proof.
  unfold Bytes.to_Z, Bytes.of_Z.
  pose proof (N_ascii_bounded b).
  rewrite Z.mod_small by lia.
  rewrite N2Z.id. apply ascii_N_embedding.
Qed.

Lemma length_encode_le k n : length (Bytes.encode_le k n) = k.
Proof. revert n. induction k as [|k IH]; intros n; simpl; [done|]. by rewrite IH. Qed.

Lemma decode_encode_le k n :
  Bytes.decode_le (Bytes.encode_le k n) = n mod 2 ^ (8 * Z.of_nat k).
Proof.
  revert n. induction k as [|k IH]; intros n.
  - simpl. by rewrite Z.mod_1_r.
  - cbn [Bytes.encode_le Bytes.decode_le]. rewrite to_Z_of_Z, IH.
    replace (8 * Z.of_nat (S k)) with (8 + 8 * Z.of_nat k) by lia.
    rewrite Z.pow_add_r by lia. change (2 ^ 8) with 256.
    rewrite Z.rem_mul_r by lia. lia.
Qed.

Lemma decode_encode_unsigned k n :
  0 <= n < 2 ^ (8 * Z.of_nat k) →
  Bytes.decode_le (Bytes.encode_le k n) = n.
Proof. intros Hn. rewrite decode_encode_le. by apply Z.mod_small. Qed.

Lemma decode_encode_signed k n :
  (0 < k)%nat →
  - 2 ^ (8 * Z.of_nat k - 1) <= n < 2 ^ (8 * Z.of_nat k - 1) →
  Bytes.to_signed k (Bytes.decode_le (Bytes.encode_le k n)) = n.
Proof.
  intros Hk Hn. rewrite decode_encode_le. unfold Bytes.to_signed.
  set (w := 8 * Z.of_nat k) in *.
  assert (Hw : 2 ^ w = 2 * 2 ^ (w - 1)).
  { rewrite <- Z.pow_succ_r by lia. f_equal. lia. }
  destruct (Z.leb_spec 0 n) as [Hpos|Hneg].
  - rewrite Z.mod_small by lia.
    destruct (Z.ltb_spec n (2 ^ (w - 1))); lia.
  - replace (n mod 2 ^ w) with (n + 2 ^ w).
    + destruct (Z.ltb_spec (n + 2 ^ w) (2 ^ (w - 1))); lia.
    + apply Z.mod_unique with (q := -1); lia.
Qed.

End ByteLemmas.

(** ** Object representations *)

Lemma length_object_bytes v : length (object_bytes v) = type_bytes (type_of v).
Proof. destruct v; simpl; by rewrite ?length_encode_le. Qed.

(** Reading back the bytes [memcpy] took from an object yields the object. *)
Lemma read_object_bytes v :
  wf_value v → read_object (type_of v) (object_bytes v) = v.
Proof.
  destruct v as [b|c|t n|t bits]; simpl; intros Hwf.
  - by destruct b.
  - done.
  - f_equal. unfold int_min, int_max in Hwf.
    destruct (int_signed t) eqn:Hs.
    + apply decode_encode_signed; [destruct t; simpl; lia | lia].
    + apply decode_encode_unsigned. lia.
  - f_equal. by apply decode_encode_unsigned.
Qed.

Lemma wf_valueb_spec v : wf_valueb v = true ↔ wf_value v.
Proof.
  destruct v; simpl; rewrite ?andb_true_iff, ?Z.leb_le, ?Z.ltb_lt; tauto.
Qed.

(** ** Memory *)

Section MemoryLemmas.
Implicit Types (m : mem) (p q : Z) (bs : list ascii).

Lemma length_load_bytes m p n : length (load_bytes m p n) = n.
Proof. revert p. induction n as [|n IH]; intros p; simpl; [done|]. by rewrite IH. Qed.

Lemma load_bytes_lookup m p n i :
  (i < n)%nat → load_bytes m p n !! i = Some (load m (p + Z.of_nat i)).
Proof.
  revert p i. induction n as [|n IH]; intros p i Hi; [lia|].
  destruct i as [|i]; simpl.
  - do 2 f_equal. lia.
  - rewrite IH by lia. do 2 f_equal. lia.
Qed.

(** Memory after a copy: the copied bytes inside the destination range,
    the old contents everywhere else. *)
Lemma memcpy_lookup m p bs q :
  memcpy m p bs !! q =
    if decide (p <= q < p + Z.of_nat (length bs))
    then bs !! Z.to_nat (q - p)
    else m !! q.
Proof.
  revert m p. induction bs as [|b bs IH]; intros m p; simpl.
  - case_decide; [lia | done].
  - rewrite IH. repeat case_decide; try lia.
    + replace (Z.to_nat (q - p)) with (S (Z.to_nat (q - (p + 1)))) by lia. done.
    + assert (q = p) as -> by lia. rewrite lookup_insert_eq.
      by replace (p - p) with 0 by lia.
    + apply lookup_insert_ne. lia.
Qed.

Lemma memcpy_outside m p bs q :
  q < p ∨ p + Z.of_nat (length bs) <= q → memcpy m p bs !! q = m !! q.
Proof. intros Hq. rewrite memcpy_lookup. case_decide; [lia | done]. Qed.

Lemma memcpy_app m p bs1 bs2 :
  memcpy m p (bs1 ++ bs2) = memcpy (memcpy m p bs1) (p + Z.of_nat (length bs1)) bs2.
Proof.
  revert m p. induction bs1 as [|b bs1 IH]; intros m p; simpl.
  - f_equal. lia.
  - rewrite IH. f_equal. lia.
Qed.

(** Reading a slice of what one copy wrote. *)
Lemma load_bytes_memcpy m p pre bs post :
  load_bytes (memcpy m p (pre ++ bs ++ post)) (p + Z.of_nat (length pre)) (length bs)
  = bs.
Proof.
  apply list_eq. intros i.
  destruct (decide (i < length bs)%nat) as [Hi|Hi].
  - rewrite load_bytes_lookup by done. unfold load.
    rewrite memcpy_lookup, !length_app.
    case_decide; [|lia].
    replace (Z.to_nat (p + Z.of_nat (length pre) + Z.of_nat i - p))
      with (length pre + i)%nat by lia.
    rewrite lookup_app_r by lia.
    replace (length pre + i - length pre)%nat with i by lia.
    rewrite lookup_app_l by done.
    destruct (lookup_lt_is_Some_2 bs i Hi) as [b Hb]. by rewrite Hb.
  - rewrite !lookup_ge_None_2; [done | lia | rewrite length_load_bytes; lia].
Qed.

(** Two memories that agree on a range read the same bytes from it. *)
Lemma load_bytes_agree m1 m2 p n :
  (∀ q, p <= q < p + Z.of_nat n → load m1 q = load m2 q) →
  load_bytes m1 p n = load_bytes m2 p n.
Proof.
  revert p. induction n as [|n IH]; intros p Hag; simpl; [done|].
  rewrite Hag by lia. f_equal. apply IH. intros q Hq. apply Hag. lia.
Qed.

End MemoryLemmas.

(** ** The encoder: [GetArgsSize] and [CopyArgs] *)

Lemma GetArgsSize_offset args : GetArgsSize args = arg_offset args.
Proof. induction args as [|a args IH]; simpl; [done|]. unfold GetArgSize. by rewrite IH. Qed.

Lemma GetArgsSize_sum args :
  GetArgsSize args = foldr Z.add 0 (sizeof ∘ type_of <$> args).
Proof. induction args as [|a args IH]; simpl; [done|]. unfold GetArgSize. by rewrite IH. Qed.

Lemma GetArgsSize_app args1 args2 :
  GetArgsSize (args1 ++ args2) = GetArgsSize args1 + GetArgsSize args2.
Proof. induction args1 as [|a args1 IH]; simpl; [done|]. rewrite IH. lia. Qed.

Lemma GetArgsSize_nonneg args : 0 <= GetArgsSize args.
Proof.
  induction args as [|a args IH]; simpl; [done|].
  unfold GetArgSize, sizeof. lia.
Qed.

Lemma length_payload args : Z.of_nat (length (payload args)) = GetArgsSize args.
Proof.
  induction args as [|a args IH]; [done|].
  change (payload (a :: args)) with (object_bytes a ++ payload args).
  rewrite length_app, length_object_bytes, Nat2Z.inj_add, IH. done.
Qed.

Lemma payload_app args1 args2 : payload (args1 ++ args2) = payload args1 ++ payload args2.
Proof. unfold payload. by rewrite fmap_app, concat_app. Qed.

(** [CopyArgs] is one copy of the concatenated object representations. *)
Lemma CopyArgs_memcpy m buffer args :
  CopyArgs m buffer args = (memcpy m buffer (payload args), buffer + GetArgsSize args).
Proof.
  revert m buffer. induction args as [|a args IH]; intros m buffer.
  - simpl. f_equal. lia.
  - cbn [CopyArgs CopyArg]. rewrite IH.
    change (payload (a :: args)) with (object_bytes a ++ payload args).
    rewrite memcpy_app, length_object_bytes. cbn [GetArgsSize].
    unfold GetArgSize, sizeof. f_equal. lia.
Qed.

(** ** C strings and streams *)

Section StringLemmas.
Implicit Types (s t u : string) (c : ascii).

Lemma append_cons c s t : String c s +:+ t = String c (s +:+ t).
Proof. reflexivity. Qed.

Lemma append_nil_l s : "" +:+ s = s.
Proof. reflexivity. Qed.

Lemma append_nil_r s : s +:+ "" = s.
Proof. induction s as [|c s IH]; [done|]. by rewrite append_cons, IH. Qed.

Lemma append_assoc s t u : (s +:+ t) +:+ u = s +:+ t +:+ u.
Proof. induction s as [|c s IH]; [done|]. by rewrite !append_cons, IH. Qed.

Lemma append_char s c t : (s +:+ String c "") +:+ t = s +:+ String c t.
Proof. by rewrite append_assoc. Qed.

(** [strstr(s, "%")] looks at the first character, then at the rest. *)
Lemma strstr_percent_cons c s :
  strstr (String c s) "%" =
    if decide (c = "%"%char) then Some 0%nat else S <$> strstr s "%".
Proof.
  unfold strstr. cbn [String.index String.prefix].
  destruct (ascii_dec "%" c) as [<-|Hne].
  - destruct s; by rewrite decide_True.
  - rewrite decide_False by congruence.
    by destruct (String.index 0 "%" s).
Qed.

Lemma strstr_percent_found s :
  (0 < CountPlaceholders s)%nat → is_Some (strstr s "%").
Proof.
  induction s as [|c s IH]; simpl; [lia|].
  rewrite strstr_percent_cons. case_decide; [eauto|].
  intros Hc. destruct IH as [k ->]; [lia|]. eauto.
Qed.

Lemma strstr_percent_missing s :
  CountPlaceholders s = 0%nat → strstr s "%" = None.
Proof.
  induction s as [|c s IH]; simpl; [done|].
  rewrite strstr_percent_cons. case_decide; [lia|].
  intros Hc. by rewrite IH.
Qed.

(** Past the first placeholder there is one placeholder less. *)
Lemma CountPlaceholders_advance s k :
  strstr s "%" = Some k →
  CountPlaceholders s = S (CountPlaceholders (advance (k + 1) s)).
Proof.
  revert k. induction s as [|c s IH]; intros k; [done|].
  rewrite strstr_percent_cons. cbn [CountPlaceholders]. case_decide.
  - by intros [= <-].
  - destruct (strstr s "%") as [k'|]; [|done]. intros [= <-].
    by rewrite (IH k').
Qed.

Lemma spec_direct_format_nil s : spec_direct_format s [] = s.
Proof. induction s as [|c s IH]; simpl; [done|]. case_decide; by rewrite IH. Qed.

End StringLemmas.

(** ** [Format], one character of the format string at a time *)

Section FormatLemmas.
Implicit Types (m : mem) (os fmt : string) (Args : list ctype).

(** At a placeholder the next argument is decoded and printed. *)
Lemma Format_placeholder Arg Args os fmt m argsData :
  Format (Arg :: Args) os (String "%" fmt) m argsData =
    Format Args (FormatArg Arg os m argsData).1 fmt m (FormatArg Arg os m argsData).2.
Proof.
  cbn [Format]. rewrite strstr_percent_cons, decide_True by done.
  cbn [substring advance Nat.add]. by rewrite append_nil_r.
Qed.

(** Any other character goes to the stream as it is. *)
Lemma Format_literal c Args os fmt m argsData :
  c ≠ "%"%char →
  Format Args os (String c fmt) m argsData =
    Format Args (os +:+ String c "") fmt m argsData.
Proof.
  intros Hc. destruct Args as [|Arg Args]; cbn [Format].
  - by rewrite append_char.
  - rewrite strstr_percent_cons, decide_False by done.
    destruct (strstr fmt "%") as [k|]; [|done].
    cbn [fmap option_fmap option_map substring advance Nat.add].
    by rewrite append_char.
Qed.

Lemma FormatArg_stored v os m argsData :
  wf_value v →
  load_bytes m argsData (type_bytes (type_of v)) = object_bytes v →
  FormatArg (type_of v) os m argsData =
    (os +:+ OStream.text_of v, argsData + sizeof (type_of v)).
Proof.
  intros Hwf Hbytes. unfold FormatArg. by rewrite Hbytes, read_object_bytes.
Qed.

(** The stream only grows, and what is appended does not depend on what it
    held before. *)
Lemma Format_append Args os os' fmt m argsData :
  Format Args (os' +:+ os) fmt m argsData =
    (String.append os') <$> Format Args os fmt m argsData.
Proof.
  revert os fmt argsData. induction Args as [|Arg Args IH]; intros os fmt argsData.
  - cbn [Format]. simpl. by rewrite append_assoc.
  - cbn [Format]. destruct (strstr fmt "%") as [k|]; [|done].
    unfold FormatArg. rewrite <- IH. by rewrite !append_assoc.
Qed.

(** [Format] comes to the end of its argument types exactly when the format
    string has a placeholder for each of them; with fewer, [strstr] returns
    null. *)
Lemma Format_arity Args os fmt m argsData :
  is_Some (Format Args os fmt m argsData) ↔
  (length Args <= CountPlaceholders fmt)%nat.
Proof.
  revert os fmt argsData.
  induction Args as [|Arg Args IH]; intros os fmt argsData; cbn [Format length].
  - split; [lia | eauto].
  - destruct (strstr fmt "%") as [k|] eqn:Hk.
    + rewrite (CountPlaceholders_advance _ _ Hk).
      destruct (FormatArg Arg _ m argsData) as [os' argsData'].
      rewrite IH. lia.
    + split; [by intros [? ?]|].
      destruct (CountPlaceholders fmt) as [|n] eqn:Hn; [lia|].
      destruct (strstr_percent_found fmt) as [k' Hk']; [lia|]. congruence.
Qed.

Lemma sizeof_pos Arg : 0 < sizeof Arg.
Proof. by destruct Arg as [| |[]|[]]. Qed.

Lemma sizes_nonneg Args : 0 <= foldr Z.add 0 (sizeof <$> Args).
Proof.
  induction Args as [|Arg Args IH]; [done|].
  rewrite fmap_cons. cbn [foldr]. pose proof (sizeof_pos Arg). lia.
Qed.

(** Only the bytes of the payload are read. *)
Lemma Format_agree Args os fmt m1 m2 argsData :
  (∀ q, argsData <= q < argsData + foldr Z.add 0 (sizeof <$> Args) →
        load m1 q = load m2 q) →
  Format Args os fmt m1 argsData = Format Args os fmt m2 argsData.
Proof.
  revert os fmt argsData.
  induction Args as [|Arg Args IH]; intros os fmt argsData Hag; [done|].
  cbn [Format]. destruct (strstr fmt "%") as [k|]; [|done].
  pose proof (sizes_nonneg Args) as Hsz.
  rewrite fmap_cons in Hag. cbn [foldr] in Hag.
  unfold FormatArg.
  rewrite (load_bytes_agree m1 m2)
    by (intros q Hq; apply Hag; unfold sizeof at 1; lia).
  apply IH. intros q Hq. apply Hag. pose proof (sizeof_pos Arg). lia.
Qed.

End FormatLemmas.

Lemma arg_offset_snoc before arg :
  arg_offset (before ++ [arg]) = arg_offset before + sizeof (type_of arg).
Proof.
  rewrite <- (GetArgsSize_offset before), <- (GetArgsSize_offset (before ++ [arg])).
  rewrite GetArgsSize_app. cbn [GetArgsSize]. unfold GetArgSize. lia.
Qed.

(** The arguments lie in memory one after the other from [p]. *)
Lemma stored_after_CopyArgs m buffer before arg after :
  load_bytes (CopyArgs m buffer (before ++ arg :: after)).1
    (buffer + arg_offset before) (type_bytes (type_of arg))
  = object_bytes arg.
Proof.
  rewrite CopyArgs_memcpy. cbn [fst].
  rewrite payload_app. change (payload (arg :: after)) with (object_bytes arg ++ payload after).
  rewrite <- GetArgsSize_offset, <- length_payload, <- length_object_bytes.
  apply load_bytes_memcpy.
Qed.

(** Decoding what [CopyArgs] wrote, against any memory that holds the
    payload from [p] on. *)
Lemma Format_payload fmt : ∀ args os m p before,
  Forall wf_value args →
  CountPlaceholders fmt = length args →
  (∀ pre arg post, args = pre ++ arg :: post →
     load_bytes m (p + arg_offset (before ++ pre)) (type_bytes (type_of arg))
     = object_bytes arg) →
  Format (type_of <$> args) os fmt m (p + arg_offset before) =
    Some (os +:+ spec_direct_format fmt args).
Proof.
  induction fmt as [|c fmt IH]; intros args os m p before Hwf Hcount Hmem.
  - destruct args; [|done]. cbn. by rewrite append_nil_r.
  - cbn [CountPlaceholders] in Hcount. cbn [spec_direct_format].
    case_decide as Hc.
    + subst c. destruct args as [|arg args]; [done|].
      apply Forall_cons in Hwf as [Hwf1 Hwf].
      cbn [fmap list_fmap]. rewrite Format_placeholder.
      rewrite FormatArg_stored; [|done|].
      2:{ specialize (Hmem [] arg args eq_refl). by rewrite app_nil_r in Hmem. }
      cbn [fst snd].
      replace (p + arg_offset before + sizeof (type_of arg))
        with (p + arg_offset (before ++ [arg])).
      2:{ rewrite arg_offset_snoc. lia. }
      rewrite (IH args _ m p (before ++ [arg])); [|done|simpl in Hcount; lia|].
      * by rewrite append_assoc.
      * intros pre a post ->. rewrite <- app_assoc.
        by apply (Hmem (arg :: pre) a post).
    + rewrite Format_literal by done.
      rewrite (IH args _ m p before); [|done|simpl in Hcount; lia|done].
      by rewrite append_char.
Qed.

(** ** Round trip *)

(** C1.  For arguments of the supported types, as many as the format string
    has placeholders, [Evaluate] run on the bytes [CopyArgs] wrote appends to
    the stream exactly the text of the straightforward formatter: each
    placeholder replaced by the text form of the next argument, the literal
    spans copied as they are. *)
Theorem Evaluate_CopyArgs_round_trip formatString args m buffer outputStream :
  Forall wf_value args →
  CountPlaceholders formatString = sizeof_args args →
  Evaluate {| mFormatString := formatString; T := type_of <$> args |}
    (CopyArgs m buffer args).1 buffer outputStream
  = Some (outputStream +:+ spec_direct_format formatString args).
Proof.
  intros Hwf Hcount. unfold Evaluate. cbn [T mFormatString].
  replace buffer with (buffer + arg_offset []) at 2 by (cbn; lia).
  apply Format_payload; [done..|].
  intros pre arg post ->. apply stored_after_CopyArgs.
Qed.

Lemma Evaluate_CopyArgs_round_trip_witness :
  Evaluate
    {| mFormatString := "Hello int=% char=% float=%";
       T := [TInteger Int; TChar; TFloating Double] |}
    (CopyArgs ∅ 0 [VInteger Int 1; VChar "a"; VFloating Double double_42_3]).1
    0 ""
  = Some "Hello int=1 char=a float=42.3".
Proof.
  apply (Evaluate_CopyArgs_round_trip "Hello int=% char=% float=%"
           [VInteger Int 1; VChar "a"; VFloating Double double_42_3] ∅ 0 "").
  - repeat constructor; by vm_compute.
  - reflexivity.
Defined.

(** ** The scenario of [main] *)

(** The literal [42.3] denotes the [double] nearest to 423/10: a normal
    number [m * 2^-47] within half a unit in the last place. *)
Lemma double_42_3_nearest :
  ∃ m, OStream.classify Double double_42_3 = OStream.FFinite m (-47) ∧
       2 ^ 52 <= m < 2 ^ 53 ∧
       2 * Z.abs (10 * m - 423 * 2 ^ 47) <= 10.
Proof. eexists. split; [by vm_compute|]. split; [split|]; by vm_compute. Qed.

(** C2.  [LOG("Hello int=% char=% float=%", 1, 'a', 42.3)] followed by the
    consumption of its record renders "Hello int=1 char=a float=42.3". *)
Theorem main_renders_hello : main = Some "Hello int=1 char=a float=42.3".
Proof. by vm_compute. Qed.

(** ** Arity *)

(** C4.  A call of [LOG] goes through exactly when the format string has as
    many placeholders as there are arguments.  It then is [WriteLog], which
    has no arity check of its own, and the formatter of the call finds a
    placeholder for every argument whatever the buffer holds.  A call with a
    mismatch is turned down by the [static_assert]: no state and no record
    come out of it. *)
Theorem LOG_accepts_matching_arity site formatString args s :
  (CountPlaceholders formatString = sizeof_args args ∧
   LOG site formatString args s = Some (WriteLog s site formatString args) ∧
   ∀ m argsData outputStream,
     is_Some (Evaluate {| mFormatString := formatString; T := type_of <$> args |}
                m argsData outputStream))
  ∨ (CountPlaceholders formatString ≠ sizeof_args args ∧
     LOG site formatString args s = None).
Proof.
  unfold LOG. case_decide as Hcount; [left | right]; [|done].
  split; [done|]. split; [done|]. intros m argsData os.
  apply Format_arity. cbn [T mFormatString].
  rewrite length_fmap, Hcount. done.
Qed.

(** ** Determinism *)

(** On a stream in its initial formatting state the text [Evaluate] appends
    is a function of the formatter and of the payload bytes alone: it does not
    depend on what the stream already holds nor on memory outside the
    payload. *)
Lemma Evaluate_default_text f m argsData :
  ∃ text : option string,
    (∀ m' outputStream,
       (∀ q, argsData <= q < argsData + foldr Z.add 0 (sizeof <$> T f) →
             load m' q = load m q) →
       Evaluate f m' argsData outputStream = (String.append outputStream) <$> text)
    ∧ text = Evaluate f m argsData "".
Proof.
  exists (Evaluate f m argsData "").
  assert (Happ : ∀ os, Evaluate f m argsData os
                       = (String.append os) <$> Evaluate f m argsData "").
  { intros os. unfold Evaluate. rewrite <- Format_append. by rewrite append_nil_r. }
  split; [|done].
  intros m' os Hag. rewrite <- (Happ os). unfold Evaluate. by apply Format_agree.
Qed.

Section FormattedLemmas.
Implicit Types (os : Formatted.ostream) (m : mem) (fmt : string) (Args : list ctype).

Lemma padded_width_0 os t : Formatted.width os = 0%nat → Formatted.padded os t = t.
Proof. intros Hw. unfold Formatted.padded. by rewrite Hw. Qed.

(** A stream of Formatted.width 0 behaves as the stream of the model without Formatted.width. *)
Lemma Formatted_Format_width_0 Args os fmt m argsData :
  Formatted.width os = 0%nat →
  Formatted.Format Args os fmt m argsData =
    (λ t, {| Formatted.str := t; Formatted.width := 0; Formatted.fill := Formatted.fill os |})
      <$> Format Args (Formatted.str os) fmt m argsData.
Proof.
  revert os fmt argsData.
  induction Args as [|Arg Args IH]; intros os fmt argsData Hw.
  - cbn. unfold Formatted.formatted. by rewrite padded_width_0.
  - cbn [Formatted.Format Format]. destruct (strstr fmt "%") as [k|]; [|done].
    unfold Formatted.FormatArg, FormatArg.
    rewrite IH by done. cbn [Formatted.formatted Formatted.unformatted Formatted.str Formatted.fill Formatted.width].
    rewrite padded_width_0 by done. done.
Qed.

Lemma Formatted_Format_arity Args os fmt m argsData :
  is_Some (Formatted.Format Args os fmt m argsData) ↔
  (length Args <= CountPlaceholders fmt)%nat.
Proof.
  revert os fmt argsData.
  induction Args as [|Arg Args IH]; intros os fmt argsData;
    cbn [Formatted.Format length].
  - split; [lia | eauto].
  - destruct (strstr fmt "%") as [k|] eqn:Hk.
    + rewrite (CountPlaceholders_advance _ _ Hk).
      destruct (Formatted.FormatArg Arg _ m argsData) as [os' argsData'].
      rewrite IH. lia.
    + split; [by intros [? ?]|].
      destruct (CountPlaceholders fmt) as [|n] eqn:Hn; [lia|].
      destruct (strstr_percent_found fmt) as [k' Hk']; [lia|]. congruence.
Qed.

(** Whatever the Formatted.width was, [Format] leaves it at 0: its last act is a
    Formatted.formatted insertion.  The text already in the stream stays, and so does
    the Formatted.fill character. *)
Lemma Formatted_Format_resets Args os (os' : Formatted.ostream) fmt m argsData :
  Formatted.Format Args os fmt m argsData = Some os' →
  Formatted.width os' = 0%nat ∧ Formatted.fill os' = Formatted.fill os ∧ ∃ t, Formatted.str os' = Formatted.str os +:+ t.
Proof.
  revert os fmt argsData.
  induction Args as [|Arg Args IH]; intros os fmt argsData.
  - cbn. intros [= <-]. cbn. eauto.
  - cbn [Formatted.Format]. destruct (strstr fmt "%") as [k|]; [|done].
    unfold Formatted.FormatArg. intros Hfmt.
    apply IH in Hfmt as (Hw & Hf & t & Ht). cbn in Hf, Ht.
    split; [done|]. split; [done|].
    rewrite Ht, !append_assoc. eauto.
Qed.

Lemma Formatted_Format_agree Args os fmt m1 m2 argsData :
  (∀ q, argsData <= q < argsData + foldr Z.add 0 (sizeof <$> Args) →
        load m1 q = load m2 q) →
  Formatted.Format Args os fmt m1 argsData = Formatted.Format Args os fmt m2 argsData.
Proof.
  revert os fmt argsData.
  induction Args as [|Arg Args IH]; intros os fmt argsData Hag; [done|].
  cbn [Formatted.Format]. destruct (strstr fmt "%") as [k|]; [|done].
  pose proof (sizes_nonneg Args) as Hsz.
  rewrite fmap_cons in Hag. cbn [foldr] in Hag.
  unfold Formatted.FormatArg.
  rewrite (load_bytes_agree m1 m2)
    by (intros q Hq; apply Hag; unfold sizeof at 1; lia).
  apply IH. intros q Hq. apply Hag. pose proof (sizeof_pos Arg). lia.
Qed.

End FormattedLemmas.

(** A stream with a field width set: the first evaluation pads the number
    and writes "n=  7"; the second, on the same formatter and the same payload,
    writes "n=7". *)
Lemma Evaluate_depends_on_width :
  let f := {| mFormatString := "n=%"; T := [TInteger Int] |} in
  let m := memcpy ∅ 0 (payload [VInteger Int 7]) in
  let wide := {| Formatted.str := ""; Formatted.width := 3; Formatted.fill := " " |} in
  ∃ once twice,
    Formatted.Evaluate f m 0 wide = Some once ∧
    Formatted.Evaluate f m 0 once = Some twice ∧
    Formatted.str once = "n=  7" ∧
    Formatted.str twice = "n=  7" +:+ "n=7" ∧
    "n=  7" ≠ "n=7".
Proof. cbv zeta. eexists _, _. repeat split; by vm_compute. Qed.

(** C8, as the code has it.  What [Evaluate] writes depends on the field
    width of the stream besides the formatter and the payload: the first item
    it inserts is padded to the width, and the width is 0 when it returns.  On
    a stream whose width is 0 the text is a function of the formatter and of
    the payload bytes alone, and evaluating twice appends it twice; on any
    stream every evaluation after the first appends that text.  The payload
    and the formatter are read only: [Consume] hands the state of the process
    back as it got it. *)
Theorem Evaluate_text_function f m argsData :
  ∃ text : option string,
    (∀ m' outputStream,
       (∀ q, argsData <= q < argsData + foldr Z.add 0 (sizeof <$> T f) →
             load m' q = load m q) →
       Formatted.width outputStream = 0%nat →
       Formatted.Evaluate f m' argsData outputStream =
         (λ t, {| Formatted.str := Formatted.str outputStream +:+ t;
                  Formatted.width := 0;
                  Formatted.fill := Formatted.fill outputStream |}) <$> text)
    ∧ (∀ outputStream once,
         Formatted.Evaluate f m argsData outputStream = Some once →
         Formatted.width once = 0%nat ∧
         Formatted.fill once = Formatted.fill outputStream ∧
         ∃ t, text = Some t ∧
              Formatted.Evaluate f m argsData once =
                Some {| Formatted.str := Formatted.str once +:+ t;
                        Formatted.width := 0;
                        Formatted.fill := Formatted.fill outputStream |})
    ∧ (∀ s header outputStream s' once,
         Formatted.Consume s header outputStream = Some (s', once) → s' = s).
Proof.
  destruct (Evaluate_default_text f m argsData) as (text & Htext & Hdef).
  exists text.
  assert (H0 : ∀ m' os,
             (∀ q, argsData <= q < argsData + foldr Z.add 0 (sizeof <$> T f) →
                   load m' q = load m q) →
             Formatted.width os = 0%nat →
             Formatted.Evaluate f m' argsData os =
               (λ t, {| Formatted.str := Formatted.str os +:+ t;
                        Formatted.width := 0;
                        Formatted.fill := Formatted.fill os |}) <$> text).
  { intros m' os Hag Hw. unfold Formatted.Evaluate.
    rewrite Formatted_Format_width_0 by done.
    fold (Evaluate f m' argsData (Formatted.str os)).
    rewrite (Htext m' _ Hag). by destruct text. }
  split; [exact H0|]. split.
  - intros os once Hev. unfold Formatted.Evaluate in Hev.
    destruct (Formatted_Format_resets _ _ _ _ _ _ Hev) as (Hw & Hf & _).
    split; [done|]. split; [done|].
    assert (is_Some text) as [t Ht].
    { rewrite Hdef. unfold Evaluate. apply Format_arity.
      apply (Formatted_Format_arity (T f) os (mFormatString f) m argsData).
      by rewrite Hev. }
    exists t. split; [done|].
    rewrite (H0 m once) by done. rewrite Ht, Hf. done.
  - intros s header os s' once. unfold Formatted.Consume.
    destruct (mLogFormatter header) as [|p|]; try done.
    destruct (heap s !! p) as [f'|]; [|done].
    destruct (Formatted.Evaluate f' _ _ _); [|done]. by intros [= <- _].
Qed.
(** ** Payload layout *)

(** C9.  [CopyArgs] writes [GetArgsSize(args...)] bytes, the sum of the
    [sizeof] of the arguments, and returns the buffer pointer advanced by that
    many.  Inside that range memory holds the object bytes of the arguments
    in call order with nothing in between; outside it nothing changes.  Every
    argument starts at the sum of the sizes of those before it, and that is
    where [FormatArg] finds it: reading there yields the argument's text and
    the pointer to the next argument. *)
Theorem CopyArgs_layout m buffer args :
  GetArgsSize args = foldr Z.add 0 (sizeof ∘ type_of <$> args) ∧
  Z.of_nat (length (payload args)) = GetArgsSize args ∧
  (CopyArgs m buffer args).2 = buffer + GetArgsSize args ∧
  (∀ q, (CopyArgs m buffer args).1 !! q =
        if decide (buffer <= q < buffer + GetArgsSize args)
        then payload args !! Z.to_nat (q - buffer)
        else m !! q) ∧
  (∀ before arg after, args = before ++ arg :: after →
     arg_offset before = GetArgsSize before ∧
     load_bytes (CopyArgs m buffer args).1 (buffer + arg_offset before)
       (type_bytes (type_of arg)) = object_bytes arg ∧
     (wf_value arg → ∀ outputStream,
        FormatArg (type_of arg) outputStream (CopyArgs m buffer args).1
          (buffer + arg_offset before)
        = (outputStream +:+ OStream.text_of arg,
           buffer + arg_offset (before ++ [arg])))).
Proof.
  split; [apply GetArgsSize_sum|].
  split; [apply length_payload|].
  split; [by rewrite CopyArgs_memcpy|].
  split.
  - intros q. rewrite CopyArgs_memcpy. cbn [fst].
    rewrite memcpy_lookup, length_payload. done.
  - intros before arg after ->.
    split; [symmetry; apply GetArgsSize_offset|].
    split; [apply stored_after_CopyArgs|].
    intros Hwf os. rewrite FormatArg_stored; [|done|apply stored_after_CopyArgs].
    rewrite arg_offset_snoc. f_equal. lia.
Qed.

(** ** The header after [Write] *)

Lemma pointer_after_copy_within m stop ptr :
  stop <= mBuffer_size → pointer_after_copy m stop ptr = ptr.
Proof. intros Hstop. unfold pointer_after_copy. by rewrite decide_True. Qed.

(** [Write] copies the arguments to the start of the header's buffer whatever
    their size: the size it computed plays no part in the result. *)
Lemma Write_unchecked s p args :
  mBuffer (sHeader (Write s p args)) = memcpy (mBuffer (sHeader s)) 0 (payload args).
Proof. unfold Write, GetLogBuffer, GetNextHeader. cbn. by rewrite CopyArgs_memcpy. Qed.

Lemma Write_fields s p args :
  heap (Write s p args) = heap s ∧
  sLogFormatter (Write s p args) = sLogFormatter s ∧
  mLogFormatter (sHeader (Write s p args)) =
    pointer_after_copy (memcpy (mBuffer (sHeader s)) 0 (payload args))
      (GetArgsSize args) (Object p).
Proof.
  unfold Write, GetLogBuffer, GetNextHeader. cbn.
  rewrite CopyArgs_memcpy. cbn. by rewrite Z.add_0_l.
Qed.

(** A payload that fits the array leaves the pointer as [GetLogBuffer] stored
    it. *)
Lemma Write_pointer s p args :
  GetArgsSize args <= mBuffer_size →
  mLogFormatter (sHeader (Write s p args)) = Object p.
Proof.
  intros Hfit. destruct (Write_fields s p args) as (_ & _ & ->).
  by apply pointer_after_copy_within.
Qed.

(** ** No arguments *)

(** C10.  For a format string without placeholders and a call without
    arguments, the size computed is 0, [CopyArgs] leaves memory and the buffer
    pointer as they are, and [Evaluate] writes the whole format string.  The
    same holds through [LOG] and [Consume] the first time the call site
    runs. *)
Theorem no_arguments formatString :
  CountPlaceholders formatString = 0%nat →
  GetArgsSize [] = 0 ∧
  (∀ m buffer, CopyArgs m buffer [] = (m, buffer)) ∧
  (∀ m argsData outputStream,
     Evaluate {| mFormatString := formatString; T := [] |} m argsData outputStream
     = Some (outputStream +:+ formatString)) ∧
  (∀ site s,
     sLogFormatter s !! site = None →
     ∃ s', LOG site formatString [] s = Some s' ∧
           mBuffer (sHeader s') = mBuffer (sHeader s) ∧
           ∀ outputStream,
             Consume s' (GetNextHeader s') outputStream
             = Some (outputStream +:+ formatString)).
Proof.
  intros Hcount. repeat split.
  intros site s Hsite. unfold LOG. rewrite decide_True by done.
  eexists. split; [done|]. unfold WriteLog, CreateLogFormatter. rewrite Hsite.
  cbn -[Write]. rewrite Write_unchecked. split; [done|]. intros os.
  unfold Consume, GetNextHeader.
  rewrite Write_pointer by done.
  destruct (Write_fields
              {| sHeader := sHeader s;
                 heap := heap s ++ [{| mFormatString := formatString; T := [] |}];
                 sLogFormatter := <[site:=length (heap s)]> (sLogFormatter s) |}
              (length (heap s)) []) as (-> & _ & _).
  cbn. rewrite lookup_app_r by done.
  by rewrite Nat.sub_diag.
Qed.

Lemma no_arguments_witness :
  GetArgsSize [] = 0 ∧
  CopyArgs ∅ 0 [] = (∅, 0) ∧
  Evaluate {| mFormatString := "started"; T := [] |} ∅ 0 "" = Some "started".
Proof.
  destruct (no_arguments "started" eq_refl) as (Hsize & Hcopy & Heval & _).
  split; [exact Hsize|]. split; [apply Hcopy|]. apply (Heval ∅ 0 "").
Defined.

(** ** From [LOG] to [Consume] *)

(** The first execution of a call site whose arguments fit the buffer,
    consumed: the record renders as the straightforward formatter would render
    the call. *)
Lemma LOG_Consume_round_trip site formatString args s s' outputStream :
  Forall wf_value args →
  GetArgsSize args <= mBuffer_size →
  sLogFormatter s !! site = None →
  LOG site formatString args s = Some s' →
  Consume s' (GetNextHeader s') outputStream
  = Some (outputStream +:+ spec_direct_format formatString args).
Proof.
  intros Hwf Hfit Hsite. unfold LOG. case_decide as Hcount; [|done]. intros [= <-].
  unfold WriteLog, CreateLogFormatter. rewrite Hsite. cbn -[Write].
  unfold Consume, GetNextHeader. rewrite Write_pointer by done.
  match goal with |- context [Write ?s0 ?p ?a] =>
    destruct (Write_fields s0 p a) as (-> & _ & _) end.
  cbn -[Write]. rewrite lookup_app_r, Nat.sub_diag by done. cbn -[Write].
  rewrite Write_unchecked. cbn [sHeader].
  unfold Evaluate. cbn [T mFormatString].
  replace 0 with (0 + arg_offset []) at 2 by done.
  apply Format_payload; [done..|].
  intros pre arg post ->.
  replace (memcpy (mBuffer (sHeader s)) 0 (payload (pre ++ arg :: post)))
    with (CopyArgs (mBuffer (sHeader s)) 0 (pre ++ arg :: post)).1
    by by rewrite CopyArgs_memcpy.
  apply stored_after_CopyArgs.
Qed.

(** ** Formatter objects and call sites *)

Section Descriptors.
Implicit Types (s : state) (c : call) (calls : list call).

(** One call: either the site's static is set and nothing is constructed, or
    it is null and receives a new object, the last of the heap. *)
Lemma exec_step c s s1 :
  exec c s = Some s1 →
  (∃ p, sLogFormatter s1 !! call_site c = Some p ∧
        (fits c → mLogFormatter (sHeader s1) = Object p)) ∧
  ((∃ p, sLogFormatter s !! call_site c = Some p ∧
         heap s1 = heap s ∧ sLogFormatter s1 = sLogFormatter s)
   ∨ (sLogFormatter s !! call_site c = None ∧
      heap s1 = heap s ++ [descriptor_of c] ∧
      sLogFormatter s1 = <[call_site c := length (heap s)]> (sLogFormatter s))).
Proof.
  unfold exec, LOG. case_decide; [|done]. intros [= <-].
  unfold WriteLog.
  destruct (sLogFormatter s !! call_site c) as [p|] eqn:Hsite; cbn -[Write].
  - destruct (Write_fields s p (call_args c)) as (Hh & Hs & _).
    rewrite Hs, Hsite. split; [|left; eauto].
    exists p. split; [done|]. intros Hfit. by apply Write_pointer.
  - match goal with |- context [Write ?s' ?p ?a] =>
      destruct (Write_fields s' p a) as (Hh & Hs & _) end.
    rewrite Hs, Hh. cbn -[Write]. rewrite lookup_insert_eq. split; [|by right].
    eexists. split; [done|]. intros Hfit. by apply Write_pointer.
Qed.

Lemma exec_descriptors_ok c s s1 :
  exec c s = Some s1 → descriptors_ok s → descriptors_ok s1.
Proof.
  intros Hexec (Hbound & Hinj & Hsize).
  destruct (exec_step _ _ _ Hexec) as [_ [(p & Hp & Hh & Hs)|(Hnone & Hh & Hs)]].
  - unfold descriptors_ok. by rewrite Hh, Hs.
  - unfold descriptors_ok. rewrite Hh, Hs, length_app. cbn [length].
    split; [|split].
    + intros site p. rewrite lookup_insert. case_decide.
      * intros [= <-]. lia.
      * intros Hp%Hbound. lia.
    + intros site1 site2 p. rewrite !lookup_insert.
      repeat case_decide; subst; try done.
      * intros [= <-] Hp%Hbound. lia.
      * intros Hp%Hbound [= <-]. lia.
      * apply Hinj.
    + rewrite map_size_insert_None by done. lia.
Qed.

Lemma exec_grows c s s1 :
  exec c s = Some s1 → descriptors_ok s →
  sLogFormatter s ⊆ sLogFormatter s1 ∧
  (∀ p d, heap s !! p = Some d → heap s1 !! p = Some d) ∧
  dom (sLogFormatter s1) = {[call_site c]} ∪ dom (sLogFormatter s).
Proof.
  intros Hexec Hok.
  destruct (exec_step _ _ _ Hexec) as [_ [(p & Hp & Hh & Hs)|(Hnone & Hh & Hs)]].
  - rewrite Hh, Hs. split; [done|]. split; [done|].
    apply elem_of_dom_2 in Hp. set_solver.
  - rewrite Hh, Hs. split; [by apply insert_subseteq|]. split.
    + intros p d Hd. by apply lookup_app_l_Some.
    + by rewrite dom_insert_L.
Qed.

(** A whole run, from any state that satisfies the invariant. *)
Lemma run_descriptors calls : ∀ s s' records,
  run calls s = Some (s', records) →
  descriptors_ok s →
  descriptors_ok s' ∧
  sLogFormatter s ⊆ sLogFormatter s' ∧
  (∀ p d, heap s !! p = Some d → heap s' !! p = Some d) ∧
  dom (sLogFormatter s') = list_to_set (call_site <$> calls) ∪ dom (sLogFormatter s) ∧
  length records = length calls ∧
  (∀ i c r, calls !! i = Some c → records !! i = Some r → fits c →
     ∃ p, mLogFormatter r = Object p ∧ sLogFormatter s' !! call_site c = Some p).
Proof.
  induction calls as [|c calls IH]; intros s s' records Hrun Hok.
  - injection Hrun as <- <-.
    split; [done|]. split; [done|]. split; [done|].
    split; [cbn; by rewrite (left_id_L ∅ (∪))|]. split; [done|].
    by intros i c r Hc.
  - cbn [run] in Hrun.
    destruct (exec c s) as [s1|] eqn:Hexec; [|done]. cbn in Hrun.
    destruct (run calls s1) as [[s2 recs]|] eqn:Hrun1; [|done].
    cbn in Hrun. injection Hrun as <- <-.
    pose proof (exec_descriptors_ok _ _ _ Hexec Hok) as Hok1.
    destruct (exec_grows _ _ _ Hexec Hok) as (Hsub1 & Hheap1 & Hdom1).
    destruct (IH _ _ _ Hrun1 Hok1) as (Hok2 & Hsub2 & Hheap2 & Hdom2 & Hlen & Hrefs).
    split; [done|]. split; [by etrans|]. split; [by auto|].
    split; [rewrite Hdom2, Hdom1, fmap_cons; set_solver|].
    split; [cbn; by rewrite Hlen|].
    intros [|i] c' r Hc Hr Hfit; cbn in Hc, Hr.
    + injection Hc as <-. injection Hr as <-. unfold GetNextHeader.
      destruct (exec_step _ _ _ Hexec) as [(p & Hp & Href) _].
      exists p. split; [by apply Href|]. by eapply lookup_weaken.
    + by apply (Hrefs i).
Qed.

Lemma init_state_ok : descriptors_ok init_state.
Proof. repeat split; try done. Qed.

(** With call sites used consistently, the formatter a record points to
    holds the format string and the argument types of the call. *)
Lemma run_descriptor_contents calls : ∀ s s' records,
  run calls s = Some (s', records) →
  descriptors_ok s →
  consistent calls →
  (∀ c p, c ∈ calls → sLogFormatter s !! call_site c = Some p →
          heap s !! p = Some (descriptor_of c)) →
  ∀ i c r, calls !! i = Some c → records !! i = Some r → fits c →
    ∃ p, mLogFormatter r = Object p ∧ heap s' !! p = Some (descriptor_of c).
Proof.
  induction calls as [|c calls IH]; intros s s' records Hrun Hok Hcons Hknown;
    [by intros i c r Hc|].
  cbn [run] in Hrun.
  destruct (exec c s) as [s1|] eqn:Hexec; [|done]. cbn in Hrun.
  destruct (run calls s1) as [[s2 recs]|] eqn:Hrun1; [|done].
  cbn in Hrun. injection Hrun as <- <-.
  pose proof (exec_descriptors_ok _ _ _ Hexec Hok) as Hok1.
  destruct (exec_grows _ _ _ Hexec Hok) as (Hsub1 & Hheap1 & Hdom1).
  destruct (run_descriptors _ _ _ _ Hrun1 Hok1) as (_ & _ & Hheap2 & _).
  (* the formatter of the site of [c], once [c] has run *)
  assert (Hfirst : ∃ p, sLogFormatter s1 !! call_site c = Some p ∧
                        heap s1 !! p = Some (descriptor_of c)).
  { destruct (exec_step _ _ _ Hexec) as [_ [(p & Hp & Hh & Hs)|(Hnone & Hh & Hs)]].
    - exists p. rewrite Hh, Hs. split; [done|].
      apply Hknown; [left | done].
    - exists (length (heap s)). rewrite Hh, Hs, lookup_insert_eq. split; [done|].
      rewrite lookup_app_r by done. by rewrite Nat.sub_diag. }
  destruct Hfirst as (p0 & Hp0 & Hd0).
  intros [|i] c' r Hc Hr Hfit; cbn in Hc, Hr.
  - injection Hc as <-. injection Hr as <-. unfold GetNextHeader.
    destruct (exec_step _ _ _ Hexec) as [(p & Hp & Href) _].
    rewrite Hp0 in Hp. injection Hp as <-.
    exists p0. split; [by apply Href|]. by apply Hheap2.
  - apply (IH s1 s2 recs Hrun1 Hok1) with (i := i); [| |done..].
    + intros i1 i2 c1 c2 H1 H2. by apply (Hcons (S i1) (S i2)).
    + intros c2 p Hin Hp.
      destruct (decide (call_site c2 = call_site c)) as [Heq|Hne].
      * rewrite Heq, Hp0 in Hp. injection Hp as <-.
        apply list_elem_of_lookup in Hin as [i2 Hi2].
        destruct (Hcons (S i2) 0%nat c2 c Hi2 eq_refl Heq) as [Hf Ht].
        unfold descriptor_of. rewrite Hf, Ht. exact Hd0.
      * apply Hheap1. apply (Hknown c2); [by right|].
        destruct (exec_step _ _ _ Hexec) as [_ [(q & Hq & Hh & Hs)|(Hnone & Hh & Hs)]].
        -- by rewrite <- Hs.
        -- rewrite Hs, lookup_insert_ne in Hp by done. done.
Qed.

End Descriptors.



(** Two records of a run, both of calls that fit the buffer, point to the
    same formatter exactly when their calls are executions of the same call
    site; the formatter is an object of the heap. *)
Lemma run_same_site_iff calls s records i j ci cj ri rj :
  run calls init_state = Some (s, records) →
  calls !! i = Some ci → calls !! j = Some cj →
  records !! i = Some ri → records !! j = Some rj →
  fits ci → fits cj →
  (∃ p, mLogFormatter ri = Object p ∧ is_Some (heap s !! p)) ∧
  (call_site ci = call_site cj ↔ mLogFormatter ri = mLogFormatter rj).
Proof.
  intros Hrun Hci Hcj Hri Hrj Hfi Hfj.
  destruct (run_descriptors _ _ _ _ Hrun init_state_ok)
    as ((Hbound & Hinj & Hsize) & _ & _ & _ & _ & Hrefs).
  destruct (Hrefs i ci ri Hci Hri Hfi) as (p & Hp & Hsite_i).
  destruct (Hrefs j cj rj Hcj Hrj Hfj) as (q & Hq & Hsite_j).
  rewrite Hp, Hq. split.
  - exists p. split; [done|]. apply lookup_lt_is_Some_2. by eapply Hbound.
  - split.
    + intros Heq. rewrite Heq in Hsite_i. congruence.
    + intros [= ->]. by eapply Hinj.
Qed.

(** As many formatters are constructed as distinct call sites are executed. *)
Lemma run_heap_size calls s records :
  run calls init_state = Some (s, records) →
  length (heap s) = size (list_to_set (call_site <$> calls) : gset nat).
Proof.
  intros Hrun.
  destruct (run_descriptors _ _ _ _ Hrun init_state_ok)
    as ((_ & _ & Hsize) & _ & _ & Hdom & _).
  rewrite Hsize, <- size_dom, Hdom. cbn [init_state sLogFormatter].
  by rewrite dom_empty_L, (right_id_L ∅ (∪)).
Qed.

(** C5.  In any run of the program whose records fit the buffer, two calls
    leave records that point to the same formatter object exactly when they
    are executions of the same call site: a call site keeps the object its
    first execution constructed, and no two call sites have one in common.
    The objects constructed are as many as the distinct call sites executed:
    none is constructed twice. *)
Theorem descriptor_identity calls s records :
  within_capacity calls →
  run calls init_state = Some (s, records) →
  length (heap s) = size (list_to_set (call_site <$> calls) : gset nat) ∧
  ∀ i j ci cj ri rj,
    calls !! i = Some ci → calls !! j = Some cj →
    records !! i = Some ri → records !! j = Some rj →
    (∃ p, mLogFormatter ri = Object p ∧ is_Some (heap s !! p)) ∧
    (call_site ci = call_site cj ↔ mLogFormatter ri = mLogFormatter rj).
Proof.
  intros Hcap Hrun. split; [by eapply run_heap_size|].
  intros i j ci cj ri rj Hci Hcj Hri Hrj.
  apply (run_same_site_iff _ _ _ _ _ _ _ _ _ Hrun Hci Hcj Hri Hrj).
  - by eapply (Forall_lookup_1 fits calls).
  - by eapply (Forall_lookup_1 fits calls).
Qed.

Lemma descriptor_identity_witness :
  ∃ s records,
    run (twin_sites ++ five_calls) init_state = Some (s, records) ∧
    length (heap s)
      = size (list_to_set (call_site <$> twin_sites ++ five_calls) : gset nat) ∧
    ∀ i j ci cj ri rj,
      (twin_sites ++ five_calls) !! i = Some ci →
      (twin_sites ++ five_calls) !! j = Some cj →
      records !! i = Some ri → records !! j = Some rj →
      (∃ p, mLogFormatter ri = Object p ∧ is_Some (heap s !! p)) ∧
      (call_site ci = call_site cj ↔ mLogFormatter ri = mLogFormatter rj).
Proof.
  eexists _, _. split; [by vm_compute|].
  apply (descriptor_identity (twin_sites ++ five_calls)).
  - repeat constructor; by vm_compute.
  - by vm_compute.
Defined.

(** Two call sites with one format string and the same argument types: each
    constructs a formatter of its own, so two equal objects exist and the two
    records point to different ones. *)
Lemma twin_sites_two_descriptors :
  ∃ s c0 c1 r0 r1,
    twin_sites = [c0; c1] ∧
    run twin_sites init_state = Some (s, [r0; r1]) ∧
    call_format c0 = call_format c1 ∧
    type_of <$> call_args c0 = type_of <$> call_args c1 ∧
    mLogFormatter r0 = Object 0 ∧
    mLogFormatter r1 = Object 1 ∧
    mLogFormatter r0 ≠ mLogFormatter r1 ∧
    heap s = [descriptor_of c0; descriptor_of c1] ∧
    descriptor_of c0 = descriptor_of c1.
Proof.
  eexists _, _, _, _, _. split; [reflexivity|].
  split; [by vm_compute|]. by repeat split.
Qed.

(** C6, as the code has it.  A formatter object belongs to a call site, not
    to a format string: in a run whose records fit the buffer, of two calls
    with equal format strings and equal argument types, each record points to
    a formatter holding that format string and those types, and the two
    pointers are equal exactly when the two calls are executions of one call
    site. *)
Theorem descriptor_per_call_site calls s records i j ci cj ri rj :
  consistent calls →
  within_capacity calls →
  run calls init_state = Some (s, records) →
  calls !! i = Some ci → calls !! j = Some cj →
  records !! i = Some ri → records !! j = Some rj →
  call_format ci = call_format cj →
  type_of <$> call_args ci = type_of <$> call_args cj →
  ∃ p q,
    mLogFormatter ri = Object p ∧ mLogFormatter rj = Object q ∧
    heap s !! p = Some (descriptor_of ci) ∧
    heap s !! q = Some (descriptor_of ci) ∧
    (p = q ↔ call_site ci = call_site cj).
Proof.
  intros Hcons Hcap Hrun Hci Hcj Hri Hrj Hfmt Htypes.
  assert (Hfi : fits ci) by by eapply (Forall_lookup_1 fits calls).
  assert (Hfj : fits cj) by by eapply (Forall_lookup_1 fits calls).
  assert (Hknown : ∀ c p, c ∈ calls → sLogFormatter init_state !! call_site c = Some p →
                          heap init_state !! p = Some (descriptor_of c)) by done.
  destruct (run_descriptor_contents _ _ _ _ Hrun init_state_ok Hcons Hknown
              i ci ri Hci Hri Hfi) as (p & Hp & Hdp).
  destruct (run_descriptor_contents _ _ _ _ Hrun init_state_ok Hcons Hknown
              j cj rj Hcj Hrj Hfj) as (q & Hq & Hdq).
  exists p, q. split; [done|]. split; [done|]. split; [done|].
  split; [unfold descriptor_of in *; by rewrite Hfmt, Htypes|].
  destruct (run_same_site_iff _ _ _ i j ci cj ri rj Hrun Hci Hcj Hri Hrj Hfi Hfj)
    as [_ Hiff].
  rewrite Hiff, Hp, Hq. split; congruence.
Qed.

Lemma descriptor_per_call_site_witness :
  match run twin_sites init_state, twin_sites with
  | Some (s, [r0; r1]), [c0; c1] =>
      ∃ p q,
        mLogFormatter r0 = Object p ∧ mLogFormatter r1 = Object q ∧
        heap s !! p = Some (descriptor_of c0) ∧
        heap s !! q = Some (descriptor_of c0) ∧
        (p = q ↔ call_site c0 = call_site c1)
  | _, _ => False
  end.
Proof.
  destruct (run twin_sites init_state) as [[s [|r0 [|r1 [|r2 records]]]]|] eqn:Hrun;
    try (by vm_compute in Hrun).
  unfold twin_sites at 1.
  apply (descriptor_per_call_site twin_sites s [r0; r1] 0 1); try reflexivity;
    [| |exact Hrun].
  - intros [|[|i]] [|[|j]] ci cj Hi Hj Hsite; cbn in Hi, Hj; simplify_eq; done.
  - repeat constructor; by vm_compute.
Defined.

(** ** Placeholders and the search for them *)

Lemma CountPlaceholders_app s t :
  CountPlaceholders (s +:+ t) = (CountPlaceholders s + CountPlaceholders t)%nat.
Proof.
  induction s as [|c s IH]; [done|].
  rewrite append_cons. cbn [CountPlaceholders]. rewrite IH. lia.
Qed.

(** [CountPlaceholders], which the [static_assert] evaluates, and [strstr],
    which [Format] runs, agree on whether a string has a placeholder; the
    count is additive over concatenation and bounded by the length. *)
Theorem CountPlaceholders_strstr s t :
  (CountPlaceholders s = 0%nat ↔ strstr s "%" = None) ∧
  CountPlaceholders (s +:+ t) = (CountPlaceholders s + CountPlaceholders t)%nat ∧
  (CountPlaceholders s <= String.length s)%nat.
Proof.
  split; [split|split].
  - apply strstr_percent_missing.
  - intros Hnone. destruct (CountPlaceholders s) as [|n] eqn:Hn; [done|].
    destruct (strstr_percent_found s) as [k Hk]; [lia | congruence].
  - apply CountPlaceholders_app.
  - induction s as [|c s IH]; cbn [CountPlaceholders String.length]; [done|].
    case_decide; lia.
Qed.

(** [Evaluate] comes back with a stream exactly when the format string has at
    least as many placeholders as the formatter has argument types; with
    fewer, [strstr] returns null in the middle of [Format]. *)
Theorem Evaluate_defined_iff f m argsData outputStream :
  is_Some (Evaluate f m argsData outputStream) ↔
  (length (T f) <= CountPlaceholders (mFormatString f))%nat.
Proof. unfold Evaluate. apply Format_arity. Qed.

(** One step of [Format]: the literal span before the first placeholder goes
    to the stream, the next argument is printed in place of the placeholder,
    and formatting goes on behind it. *)
Theorem Format_span lit rest Arg Args outputStream m argsData :
  CountPlaceholders lit = 0%nat →
  Format (Arg :: Args) outputStream (lit +:+ String "%" rest) m argsData =
    Format Args (FormatArg Arg (outputStream +:+ lit) m argsData).1 rest m
      (FormatArg Arg (outputStream +:+ lit) m argsData).2.
Proof.
  revert outputStream. induction lit as [|c lit IH]; intros os Hlit.
  - rewrite append_nil_l, append_nil_r. apply Format_placeholder.
  - cbn [CountPlaceholders] in Hlit. case_decide as Hc; [lia|].
    rewrite append_cons, Format_literal by done.
    rewrite IH by (simpl in Hlit; lia). by rewrite append_char.
Qed.

Lemma Format_span_witness :
  Format [TInteger Int; TChar] "" "n=%, c=%" (memcpy ∅ 0 (payload [VInteger Int 7; VChar "z"])) 0
  = Format [TChar]
      (FormatArg (TInteger Int) "n=" (memcpy ∅ 0 (payload [VInteger Int 7; VChar "z"])) 0).1
      ", c=%" (memcpy ∅ 0 (payload [VInteger Int 7; VChar "z"]))
      (FormatArg (TInteger Int) "n=" (memcpy ∅ 0 (payload [VInteger Int 7; VChar "z"])) 0).2.
Proof.
  exact (Format_span "n=" ", c=%" (TInteger Int) [TChar] ""
           (memcpy ∅ 0 (payload [VInteger Int 7; VChar "z"])) 0 eq_refl).
Defined.

(** ** Formatting with placeholders to spare *)

Lemma Format_payload_surplus fmt : ∀ args os m p before,
  Forall wf_value args →
  (length args <= CountPlaceholders fmt)%nat →
  (∀ pre arg post, args = pre ++ arg :: post →
     load_bytes m (p + arg_offset (before ++ pre)) (type_bytes (type_of arg))
     = object_bytes arg) →
  Format (type_of <$> args) os fmt m (p + arg_offset before) =
    Some (os +:+ spec_direct_format fmt args).
Proof.
  induction fmt as [|c fmt IH]; intros args os m p before Hwf Hcount Hmem.
  - destruct args; [|simpl in Hcount; lia]. cbn. by rewrite append_nil_r.
  - cbn [CountPlaceholders] in Hcount. cbn [spec_direct_format].
    case_decide as Hc.
    + subst c. destruct args as [|arg args].
      { cbn [fmap list_fmap Format]. by rewrite spec_direct_format_nil. }
      apply Forall_cons in Hwf as [Hwf1 Hwf].
      cbn [fmap list_fmap]. rewrite Format_placeholder.
      rewrite FormatArg_stored; [|done|].
      2:{ specialize (Hmem [] arg args eq_refl). by rewrite app_nil_r in Hmem. }
      cbn [fst snd].
      replace (p + arg_offset before + sizeof (type_of arg))
        with (p + arg_offset (before ++ [arg])) by (rewrite arg_offset_snoc; lia).
      rewrite (IH args _ m p (before ++ [arg])); [|done|simpl in Hcount; lia|].
      * by rewrite append_assoc.
      * intros pre a post ->. rewrite <- app_assoc.
        by apply (Hmem (arg :: pre) a post).
    + rewrite Format_literal by done.
      rewrite (IH args _ m p before); [|done|simpl in Hcount; lia|done].
      by rewrite append_char.
Qed.

(** [Format] on a buffer that starts with the payload of the arguments. *)
Lemma Format_on_payload fmt args m0 os :
  Forall wf_value args →
  (length args <= CountPlaceholders fmt)%nat →
  Format (type_of <$> args) os fmt (memcpy m0 0 (payload args)) 0
  = Some (os +:+ spec_direct_format fmt args).
Proof.
  intros Hwf Hcount.
  replace 0 with (0 + arg_offset []) at 2 by done.
  apply Format_payload_surplus; [done..|].
  intros pre arg post ->.
  replace (memcpy m0 0 (payload (pre ++ arg :: post)))
    with (CopyArgs m0 0 (pre ++ arg :: post)).1 by by rewrite CopyArgs_memcpy.
  apply stored_after_CopyArgs.
Qed.

Lemma spec_direct_format_app head tail args :
  CountPlaceholders head = length args →
  spec_direct_format (head +:+ tail) args = spec_direct_format head args +:+ tail.
Proof.
  revert args. induction head as [|c head IH]; intros args Hcount.
  - destruct args; [|done]. by rewrite !append_nil_l, spec_direct_format_nil.
  - rewrite append_cons. cbn [spec_direct_format CountPlaceholders] in *.
    case_decide.
    + destruct args as [|arg args]; [done|].
      rewrite IH by (simpl in Hcount; lia). by rewrite append_assoc.
    + rewrite IH by (simpl in Hcount; lia). done.
Qed.

(** A format string with more placeholders than there are arguments, as
    [WriteLog] accepts when called without the [static_assert] of [LOG]: once
    the arguments are used up, the rest of the format string is written as it
    is, placeholders included. *)
Theorem Evaluate_surplus_placeholders head tail args m buffer outputStream :
  Forall wf_value args →
  CountPlaceholders head = length args →
  Evaluate {| mFormatString := head +:+ tail; T := type_of <$> args |}
    (CopyArgs m buffer args).1 buffer outputStream
  = Some (outputStream +:+ spec_direct_format head args +:+ tail).
Proof.
  intros Hwf Hcount. unfold Evaluate. cbn [T mFormatString].
  rewrite <- spec_direct_format_app by done.
  replace buffer with (buffer + arg_offset []) at 2 by (cbn; lia).
  apply Format_payload_surplus; [done| |].
  - rewrite CountPlaceholders_app. lia.
  - intros pre arg post ->. apply stored_after_CopyArgs.
Qed.

Lemma Evaluate_surplus_placeholders_witness :
  Evaluate {| mFormatString := "x=% (100%)"; T := [TInteger Int] |}
    (CopyArgs ∅ 0 [VInteger Int 5]).1 0 ""
  = Some "x=5 (100%)".
Proof.
  apply (Evaluate_surplus_placeholders "x=%" " (100%)" [VInteger Int 5] ∅ 0 "").
  - repeat constructor; by vm_compute.
  - reflexivity.
Defined.

(** ** The encoder *)

(** The payload and the argument types determine the arguments: two argument
    lists of the same types that encode to the same bytes are equal. *)
Theorem payload_injective args1 args2 :
  type_of <$> args1 = type_of <$> args2 →
  Forall wf_value args1 → Forall wf_value args2 →
  payload args1 = payload args2 →
  args1 = args2.
Proof.
  revert args2. induction args1 as [|a args1 IH]; intros [|b args2] Hty Hwf1 Hwf2 Hpay;
    try done.
  rewrite !fmap_cons in Hty. injection Hty as Hab Hty.
  apply Forall_cons in Hwf1 as [Ha Hwf1]. apply Forall_cons in Hwf2 as [Hb Hwf2].
  change (object_bytes a ++ payload args1 = object_bytes b ++ payload args2) in Hpay.
  apply app_inj_1 in Hpay as [Hbytes Hrest].
  2:{ by rewrite !length_object_bytes, Hab. }
  f_equal; [|by apply IH].
  rewrite <- (read_object_bytes a Ha), <- (read_object_bytes b Hb).
  by rewrite Hab, Hbytes.
Qed.

Lemma payload_injective_witness :
  [VInteger Int (-1); VChar "a"] = [VInteger Int (-1); VChar "a"].
Proof.
  apply (payload_injective [VInteger Int (-1); VChar "a"] [VInteger Int (-1); VChar "a"]).
  - reflexivity.
  - repeat constructor; by vm_compute.
  - repeat constructor; by vm_compute.
  - reflexivity.
Defined.

(** Encoding composes over concatenation: the sizes add up, and copying
    [args1 ++ args2] is copying [args2] where the copy of [args1] ended. *)
Theorem CopyArgs_app m buffer args1 args2 :
  GetArgsSize (args1 ++ args2) = GetArgsSize args1 + GetArgsSize args2 ∧
  CopyArgs m buffer (args1 ++ args2) =
    CopyArgs (CopyArgs m buffer args1).1 (CopyArgs m buffer args1).2 args2.
Proof.
  split; [apply GetArgsSize_app|].
  revert m buffer. induction args1 as [|a args1 IH]; intros m buffer; [done|].
  cbn [app CopyArgs CopyArg]. apply IH.
Qed.

(** ** What [Write] touches *)

(** With arguments that fit the array, [Write] stores the formatter pointer
    in the header and puts the payload over the first [GetArgsSize(args...)]
    cells of the array, and nothing else: the cells of the array behind the
    payload keep the bytes of earlier records, and the formatter objects and
    the statics of the call sites stay as they were. *)
Theorem Write_frame s logFormatter args :
  GetArgsSize args <= mBuffer_size →
  heap (Write s logFormatter args) = heap s ∧
  sLogFormatter (Write s logFormatter args) = sLogFormatter s ∧
  mLogFormatter (sHeader (Write s logFormatter args)) = Object logFormatter ∧
  ∀ q, 0 <= q < mBuffer_size →
       mBuffer (sHeader (Write s logFormatter args)) !! q =
         if decide (q < GetArgsSize args)
         then payload args !! Z.to_nat q
         else mBuffer (sHeader s) !! q.
Proof.
  intros Hfit. destruct (Write_fields s logFormatter args) as (Hh & Hs & _).
  split; [done|]. split; [done|]. split; [by apply Write_pointer|].
  intros q Hq. rewrite Write_unchecked, memcpy_lookup, length_payload.
  rewrite Z.add_0_l, Z.sub_0_r. repeat case_decide; try done; lia.
Qed.

Lemma Write_frame_witness :
  ∃ s,
    LOG 0 "a=% b=%" [VInteger Long 258; VChar "x"] init_state = Some s ∧
    mLogFormatter (sHeader (Write s 0 [VInteger Short 7])) = Object 0 ∧
    load_bytes (mBuffer (sHeader (Write s 0 [VInteger Short 7]))) 0 9
      = ["007"; "000"; "000"; "000"; "000"; "000"; "000"; "000"; "x"]%char.
Proof.
  eexists. split; [by vm_compute|].
  match goal with |- mLogFormatter (sHeader (Write ?s _ _)) = _ ∧ _ =>
    destruct (Write_frame s 0 [VInteger Short 7]) as (_ & _ & Hptr & _)
  end.
  - by vm_compute.
  - split; [exact Hptr | by vm_compute].
Defined.

(** ** From [LOG] to [Consume], at a call site that has its formatter *)

(** Once the static of a call site points to a formatter, a call there whose
    arguments fit the buffer constructs nothing and its record is rendered
    with the format string the formatter was constructed with; the format
    string passed to the call plays no part. *)
Theorem LOG_Consume_stored_format site formatString args s s' p f outputStream :
  sLogFormatter s !! site = Some p →
  heap s !! p = Some f →
  T f = type_of <$> args →
  (length args <= CountPlaceholders (mFormatString f))%nat →
  Forall wf_value args →
  GetArgsSize args <= mBuffer_size →
  LOG site formatString args s = Some s' →
  heap s' = heap s ∧
  Consume s' (GetNextHeader s') outputStream
  = Some (outputStream +:+ spec_direct_format (mFormatString f) args).
Proof.
  intros Hsite Hf Hty Hcount Hwf Hfit. unfold LOG. case_decide; [|done]. intros [= <-].
  unfold WriteLog. rewrite Hsite.
  destruct (Write_fields s p args) as (Hh & _ & _).
  split; [done|].
  unfold Consume, GetNextHeader. rewrite Write_pointer by done. rewrite Hh, Hf.
  unfold Evaluate. rewrite Hty, Write_unchecked.
  by apply Format_on_payload.
Qed.

Lemma LOG_Consume_stored_format_witness :
  ∃ s s',
    LOG 0 "first=%" [VInteger Int 1] init_state = Some s ∧
    LOG 0 "second=%" [VInteger Int 2] s = Some s' ∧
    heap s' = heap s ∧
    Consume s' (GetNextHeader s') "" = Some "first=2".
Proof.
  eexists _, _. split; [by vm_compute|].
  match goal with |- LOG _ _ _ ?s = _ ∧ _ =>
    split; [by vm_compute|];
    apply (LOG_Consume_stored_format 0 "second=%" [VInteger Int 2] s _ 0%nat
             {| mFormatString := "first=%"; T := [TInteger Int] |} "")
  end.
  - by vm_compute.
  - reflexivity.
  - reflexivity.
  - by vm_compute.
  - repeat constructor; by vm_compute.
  - by vm_compute.
  - by vm_compute.
Defined.

(** ** Records of a run *)

Lemma exec_record c s s1 :
  exec c s = Some s1 →
  CountPlaceholders (call_format c) = length (call_args c) ∧
  mBuffer (sHeader s1) = memcpy (mBuffer (sHeader s)) 0 (payload (call_args c)).
Proof.
  unfold exec, LOG. case_decide as Hcount; [|done]. intros [= <-].
  split; [done|]. unfold WriteLog.
  destruct (sLogFormatter s !! call_site c); cbn -[Write]; by rewrite Write_unchecked.
Qed.

Lemma run_records calls : ∀ s s' records,
  run calls s = Some (s', records) →
  ∀ i c r, calls !! i = Some c → records !! i = Some r →
    CountPlaceholders (call_format c) = length (call_args c) ∧
    ∃ m0, mBuffer r = memcpy m0 0 (payload (call_args c)).
Proof.
  induction calls as [|c calls IH]; intros s s' records Hrun; [by intros i c r Hc|].
  cbn [run] in Hrun.
  destruct (exec c s) as [s1|] eqn:Hexec; [|done]. cbn in Hrun.
  destruct (run calls s1) as [[s2 recs]|] eqn:Hrun1; [|done].
  cbn in Hrun. injection Hrun as <- <-.
  intros [|i] c' r Hc Hr; cbn in Hc, Hr.
  - injection Hc as <-. injection Hr as <-.
    destruct (exec_record _ _ _ Hexec) as [Hcount Hbuf]. eauto.
  - by apply (IH _ _ _ Hrun1 i).
Qed.

(** The header at the end of a run is the record of the last call. *)
Lemma run_last calls : ∀ s s' records,
  run calls s = Some (s', records) →
  length records = length calls ∧
  (calls ≠ [] → last records = Some (GetNextHeader s')).
Proof.
  induction calls as [|c calls IH]; intros s s' records Hrun.
  - by injection Hrun as <- <-.
  - cbn [run] in Hrun.
    destruct (exec c s) as [s1|] eqn:Hexec; [|done]. cbn in Hrun.
    destruct (run calls s1) as [[s2 recs]|] eqn:Hrun1; [|done].
    cbn in Hrun. injection Hrun as <- <-.
    destruct (IH _ _ _ Hrun1) as [Hlen Hlast].
    split; [cbn; by rewrite Hlen|]. intros _.
    destruct calls as [|c' calls].
    + cbn in Hrun1. by injection Hrun1 as <- <-.
    + destruct recs as [|r recs]; [done|].
      cbn [last]. by apply Hlast.
Qed.

Lemma run_record_renders calls s records i c r os :
  consistent calls →
  run calls init_state = Some (s, records) →
  calls !! i = Some c → records !! i = Some r →
  fits c →
  Forall wf_value (call_args c) →
  Consume s r os = Some (os +:+ spec_direct_format (call_format c) (call_args c)).
Proof.
  intros Hcons Hrun Hc Hr Hfit Hwf.
  assert (Hknown : ∀ c p, c ∈ calls → sLogFormatter init_state !! call_site c = Some p →
                          heap init_state !! p = Some (descriptor_of c)) by done.
  destruct (run_descriptor_contents _ _ _ _ Hrun init_state_ok Hcons Hknown
              i c r Hc Hr Hfit) as (p & Hp & Hd).
  destruct (run_records _ _ _ _ Hrun i c r Hc Hr) as (Hcount & m0 & Hbuf).
  unfold Consume. rewrite Hp, Hd. unfold Evaluate, descriptor_of. cbn [T mFormatString].
  rewrite Hbuf. apply Format_on_payload; [done | lia].
Qed.

Lemma run_record_defined calls s records i c r os :
  consistent calls →
  run calls init_state = Some (s, records) →
  calls !! i = Some c → records !! i = Some r →
  fits c →
  is_Some (Consume s r os).
Proof.
  intros Hcons Hrun Hc Hr Hfit.
  assert (Hknown : ∀ c p, c ∈ calls → sLogFormatter init_state !! call_site c = Some p →
                          heap init_state !! p = Some (descriptor_of c)) by done.
  destruct (run_descriptor_contents _ _ _ _ Hrun init_state_ok Hcons Hknown
              i c r Hc Hr Hfit) as (p & Hp & Hd).
  destruct (run_records _ _ _ _ Hrun i c r Hc Hr) as (Hcount & _).
  unfold Consume. rewrite Hp, Hd. unfold Evaluate, descriptor_of. cbn [T mFormatString].
  apply Format_arity. rewrite length_fmap. lia.
Qed.

Lemma five_calls_within_capacity : within_capacity five_calls.
Proof. repeat constructor; by vm_compute. Qed.

Lemma five_calls_consistent : consistent five_calls.
Proof.
  intros i j ci cj Hi Hj _.
  apply list_elem_of_lookup_2 in Hi, Hj.
  unfold five_calls in Hi, Hj.
  apply list_elem_of_fmap in Hi as (x & -> & _), Hj as (y & -> & _). done.
Qed.

(** In a program whose call sites are used consistently and whose records
    fit the buffer, every record renders as the straightforward formatter
    renders its call, whichever calls came before and whenever it is consumed:
    right after its call or at the end of the run. *)
Theorem run_records_render calls s records i c r outputStream :
  consistent calls →
  within_capacity calls →
  run calls init_state = Some (s, records) →
  calls !! i = Some c → records !! i = Some r →
  Forall wf_value (call_args c) →
  Consume s r outputStream
  = Some (outputStream +:+ spec_direct_format (call_format c) (call_args c)).
Proof.
  intros Hcons Hcap Hrun Hc Hr Hwf.
  assert (Hfit : fits c) by by eapply (Forall_lookup_1 fits calls).
  assert (Hknown : ∀ c p, c ∈ calls → sLogFormatter init_state !! call_site c = Some p →
                          heap init_state !! p = Some (descriptor_of c)) by done.
  destruct (run_descriptor_contents _ _ _ _ Hrun init_state_ok Hcons Hknown
              i c r Hc Hr Hfit) as (p & Hp & Hd).
  destruct (run_records _ _ _ _ Hrun i c r Hc Hr) as (Hcount & m0 & Hbuf).
  unfold Consume. rewrite Hp, Hd. unfold Evaluate, descriptor_of. cbn [T mFormatString].
  rewrite Hbuf. apply Format_on_payload; [done | lia].
Qed.

Lemma run_records_render_witness :
  ∃ s records r,
    run five_calls init_state = Some (s, records) ∧
    records !! 2%nat = Some r ∧
    Consume s r "" = Some "n=3".
Proof.
  eexists _, _, _. split; [by vm_compute|]. split; [reflexivity|].
  eapply (run_records_render five_calls _ _ 2
           {| call_site := 0; call_format := "n=%"; call_args := [VInteger Int 3] |}
           _ "").
  - apply five_calls_consistent.
  - apply five_calls_within_capacity.
  - by vm_compute.
  - reflexivity.
  - reflexivity.
  - repeat constructor; by vm_compute.
Defined.

(** [Consume] on the current header is defined exactly when a call has been
    made, in a run whose records fit the buffer: before the first call the
    header's formatter pointer is null; after any call it points to a
    formatter that finds all its placeholders. *)
Theorem Consume_defined_iff calls s records outputStream :
  consistent calls →
  within_capacity calls →
  run calls init_state = Some (s, records) →
  is_Some (Consume s (GetNextHeader s) outputStream) ↔ calls ≠ [].
Proof.
  intros Hcons Hcap Hrun. destruct (run_last _ _ _ _ Hrun) as [Hlen Hhdr]. split.
  - intros Hsome ->. injection Hrun as <- <-. by destruct Hsome.
  - intros Hne. specialize (Hhdr Hne). rewrite last_lookup, Hlen in Hhdr.
    destruct (lookup_lt_is_Some_2 calls (pred (length calls))) as [c Hc].
    { destruct calls; [done | cbn; lia]. }
    eapply run_record_defined; [done..|].
    by eapply (Forall_lookup_1 fits calls).
Qed.

Lemma Consume_defined_iff_witness :
  ∃ s records,
    run five_calls init_state = Some (s, records) ∧
    (is_Some (Consume s (GetNextHeader s) "") ↔ five_calls ≠ []).
Proof.
  eexists _, _. split; [by vm_compute|].
  eapply (Consume_defined_iff five_calls).
  - apply five_calls_consistent.
  - apply five_calls_within_capacity.
  - by vm_compute.
Defined.

(** The header keeps one record, the latest: after a run whose records fit
    the buffer, the header is the last of the records the calls wrote, and
    what [Consume] renders from [GetNextHeader] is the last call. *)
Theorem run_last_record_wins calls s records c outputStream :
  consistent calls →
  within_capacity calls →
  run calls init_state = Some (s, records) →
  last calls = Some c →
  Forall wf_value (call_args c) →
  last records = Some (GetNextHeader s) ∧
  Consume s (GetNextHeader s) outputStream
  = Some (outputStream +:+ spec_direct_format (call_format c) (call_args c)).
Proof.
  intros Hcons Hcap Hrun Hlast Hwf.
  destruct (run_last _ _ _ _ Hrun) as [Hlen Hhdr].
  assert (Hne : calls ≠ []) by (by intros ->).
  specialize (Hhdr Hne). split; [done|].
  rewrite last_lookup in Hlast. rewrite last_lookup, Hlen in Hhdr.
  eapply run_record_renders; [done..| |done].
  by eapply (Forall_lookup_1 fits calls).
Qed.

Lemma run_last_record_wins_witness :
  ∃ s records,
    run five_calls init_state = Some (s, records) ∧
    last records = Some (GetNextHeader s) ∧
    Consume s (GetNextHeader s) "" = Some "n=5".
Proof.
  eexists _, _. split; [by vm_compute|].
  eapply (run_last_record_wins five_calls _ _
           {| call_site := 0; call_format := "n=%"; call_args := [VInteger Int 5] |} "").
  - apply five_calls_consistent.
  - apply five_calls_within_capacity.
  - by vm_compute.
  - reflexivity.
  - repeat constructor; by vm_compute.
Defined.

(** ** Formatter objects over time *)






(** ** The record buffer *)

(** C3, on the code.  Seventeen [double] arguments take 136 bytes, more than
    the 128 of [mBuffer].  The call fails nothing and drops nothing: all 136
    bytes are copied.  The first sixteen arguments fill the array; the
    seventeenth goes over the formatter pointer behind it, which [GetLogBuffer]
    had stored before the copy and which now reads as the bit pattern of the
    argument, so that [Consume] has no formatter to call. *)
Theorem Write_overruns_buffer :
  mBuffer_size < GetArgsSize seventeen_doubles ∧
  ∃ s,
    LOG 0 seventeen_placeholders seventeen_doubles init_state = Some s ∧
    load_bytes (mBuffer (sHeader s)) 0 128
      = payload (replicate 16 (VFloating Double double_42_3)) ∧
    mLogFormatter (sHeader s)
      = Overwritten (object_bytes (VFloating Double double_42_3)) (Object 0) ∧
    Bytes.decode_le (object_bytes (VFloating Double double_42_3))
      = 0x4045266666666666 ∧
    Consume s (GetNextHeader s) "" = None.
Proof.
  split; [by vm_compute|]. eexists. split; [by vm_compute|].
  repeat split; by vm_compute.
Qed.




